(** * fontdiffenator: glyph-input resolution and the DFont variation lifecycle

    A shallow embedding of [Lib/diffenator/font.py]: the classes [DFont],
    [InputGenerator] and [Glyph].  Python dictionaries are finite maps
    ([gmap]), the cycle-guard set is a [gset], a Python [str] is its list of
    code points, and a tuple of feature tags is a list of such strings.
    Mutation of [self.memo] and of the shared [seen] set is written as
    explicit state passing: every function returns the generator and the set
    as they are when the Python call returns. *)

From Stdlib Require Import ZArith NArith List Permutation Lia String Ascii.
From stdpp Require Import base option list gmap sets strings.

Open Scope Z_scope.

#[local] Set Warnings "-clear-no-such-hyp".

(** ** Python values *)

(** A Python (unicode) string, as its sequence of code points. *)
Abbreviation pystr := (list N).

(** The code points of an ASCII literal (feature tags, test data). *)
Definition pystr_of (s : string) : pystr :=
  map N_of_ascii (list_ascii_of_string s).

(** [unichr(cp)]: the one-character string.  Python's [unichr] returns for
    the code points of Unicode, below U+110000 ([unichr_max]), and raises
    [ValueError] from there on; the embedding follows it on the code points
    for which it returns. *)
Definition unichr (cp : N) : pystr := [cp].

Definition unichr_max : N := 1114112%N.

(** [' ']: U+0020. *)
Definition SPACE : N := 32%N.

(** [s.replace(' ', '')]. *)
Definition remove_spaces (s : pystr) : pystr :=
  filter (λ c, c ≠ SPACE) s.

(** The value [input_from_name] computes: a [(features, text)] tuple. *)
Abbreviation hb_input := (list pystr * pystr)%type.

(** ** Python's ordering of tuples and strings *)

Section Lex.
Context {A : Type} (cmp : A → A → comparison).

(** Sequence comparison: element by element, a proper prefix sorts first. *)
Fixpoint lex_compare (xs ys : list A) : comparison :=
  match xs, ys with
  | [], [] => Eq
  | [], _ :: _ => Lt
  | _ :: _, [] => Gt
  | x :: xs', y :: ys' =>
      match cmp x y with
      | Eq => lex_compare xs' ys'
      | c => c
      end
  end.
End Lex.

Definition str_compare : pystr → pystr → comparison := lex_compare N.compare.
Definition tuple_compare : list pystr → list pystr → comparison :=
  lex_compare str_compare.

Definition input_compare (a b : hb_input) : comparison :=
  match tuple_compare a.1 b.1 with
  | Eq => str_compare a.2 b.2
  | c => c
  end.

Definition input_ltb (a b : hb_input) : bool :=
  match input_compare a b with Lt => true | _ => false end.

Definition input_le (a b : hb_input) : Prop := input_compare a b ≠ Gt.

(** [min(best, *l)]: the first smallest element. *)
Fixpoint py_min_from (best : hb_input) (l : list hb_input) : hb_input :=
  match l with
  | [] => best
  | x :: l' => py_min_from (if input_ltb x best then x else best) l'
  end.

(** [min(inputs)] on a list; [None] stands for the empty list, which the
    source excludes with [if not inputs: return None] before calling [min]. *)
Definition py_min (l : list hb_input) : option hb_input :=
  match l with
  | [] => None
  | x :: l' => Some (py_min_from x l')
  end.

(** ** The font, as far as the code reads it *)

(** One substitution rule of the GSUB table (section 6 of the specification:
    required input glyph sequence, produced glyph, activating feature tags). *)
Record Rule := {
  rule_inputs : list string;
  rule_output : string;
  rule_features : list pystr
}.

(** One axis of the [fvar] table.  Axis values are only stored and copied,
    never computed with. *)
Record Axis := {
  axisTag : string;
  defaultValue : Z
}.

(** The tables of a fontTools [TTFont] that this module reads. *)
Record TTFont := {
  (** ['cmap' in font.keys()] *)
  has_cmap : bool;
  (** [font.getGlyphOrder()] *)
  getGlyphOrder : list string;
  (** [font.getGlyphSet()[name].width]: advance widths *)
  getGlyphSet : gmap string Z;
  (** glyph name to code point *)
  font_reverse_cmap : gmap string N;
  (** visual width of every glyph *)
  font_widths : gmap string Z;
  (** advance width of the glyph of U+0020 *)
  font_space_width : Z;
  (** the GSUB substitutions, in table order *)
  font_gsub : list Rule;
  (** [font['fvar'].axes] when ['fvar' in font] *)
  font_fvar : option (list Axis);
  (** [font['OS/2'].usWeightClass] *)
  font_usWeightClass : Z
}.

(** ** Outcomes *)

Inductive exn :=
  | KeyError (k : string).

(** What a call produces: a value, a Python exception, or the exhaustion of
    the recursion budget the embedding runs with. *)
Inductive outcome (A : Type) :=
  | Ok (a : A)
  | Raise (e : exn)
  | DepthExceeded.
Arguments Ok {A} a.
Arguments Raise {A} e.
Arguments DepthExceeded {A}.

Definition obind {A B} (m : outcome A) (k : A → outcome B) : outcome B :=
  match m with
  | Ok a => k a
  | Raise e => Raise e
  | DepthExceeded => DepthExceeded
  end.

Notation "x ←! m ; k" := (obind m (λ x, k))
  (at level 20, m at level 100, k at level 200, only parsing).
Notation "' p ←! m ; k" := (obind m (λ x, match x with p => k end))
  (at level 20, p pattern, m at level 100, k at level 200, only parsing).

(** ** InputGenerator *)

(** The attributes of an [HbInputGenerator]. *)
Record InputGenerator := {
  font : TTFont;
  memo : gmap string hb_input;
  reverse_cmap : gmap string N;
  widths : gmap string Z;
  space_width : Z
}.

Definition set_memo (self : InputGenerator) (m : gmap string hb_input)
  : InputGenerator :=
  {| font := font self; memo := m; reverse_cmap := reverse_cmap self;
     widths := widths self; space_width := space_width self |}.

(** Modelled from the spec: [HbInputGenerator.__init__] of
    [diffenator.hbinput], which is not part of the sources at hand.  It binds
    the generator to one font with an empty memo, the font's reverse
    character map, the per-glyph widths and the space-glyph advance width
    (section 6, "Core consumes"). *)
Definition HbInputGenerator_init (f : TTFont) : InputGenerator :=
  {| font := f; memo := ∅; reverse_cmap := font_reverse_cmap f;
     widths := font_widths f; space_width := font_space_width f |}.

(** The state a resolution call returns: its result, the generator with its
    memo, and the contents of the [seen] set. *)
Definition resolved : Type :=
  (option hb_input * InputGenerator * gset string)%type.

(** Modelled from the spec: the feature tuple of a substitution candidate,
    "union the rule's activating feature tags into one candidate": the tags
    of the resolved inputs in order, then the rule's own, each tag once. *)
Definition union_features (fs : list (list pystr)) (tags : list pystr)
  : list pystr :=
  remove_dups (concat fs ++ tags).

Section InputsFromGsub.
(** The recursive call [self.input_from_name(glyph, seen)]. *)
Variable rec : InputGenerator → string → gset string → outcome resolved.

(** Resolve the required input glyphs of one rule, in order, threading the
    memo and the shared [seen] set. *)
Fixpoint resolve_glyphs (self : InputGenerator) (glyphs : list string)
    (seen : gset string)
  : outcome (list (option hb_input) * InputGenerator * gset string) :=
  match glyphs with
  | [] => Ok ([], self, seen)
  | g :: glyphs' =>
      '(r, self1, seen1) ←! rec self g seen;
      '(rs, self2, seen2) ←! resolve_glyphs self1 glyphs' seen1;
      Ok (r :: rs, self2, seen2)
  end.

(** The candidate of one rule: defined when every input glyph resolved. *)
Definition rule_candidate (r : Rule) (rs : list (option hb_input))
  : option hb_input :=
  match mapM id rs with
  | Some ins => Some (union_features (map fst ins) (rule_features r),
                      concat (map snd ins))
  | None => None
  end.

Fixpoint inputs_from_rules (self : InputGenerator) (name : string)
    (rules : list Rule) (seen : gset string)
  : outcome (list (option hb_input) * InputGenerator * gset string) :=
  match rules with
  | [] => Ok ([], self, seen)
  | r :: rules' =>
      if decide (rule_output r = name) then
        '(rs, self1, seen1) ←! resolve_glyphs self (rule_inputs r) seen;
        '(cs, self2, seen2) ←! inputs_from_rules self1 name rules' seen1;
        Ok (rule_candidate r rs :: cs, self2, seen2)
      else inputs_from_rules self name rules' seen
  end.

(** Modelled from the spec: [HbInputGenerator._inputs_from_gsub] of
    [diffenator.hbinput], which is not part of the sources at hand
    (section 4.2, step 4).  For every substitution rule whose output is
    [name], in table order, it resolves an input for each required input
    glyph through [input_from_name] with the caller's [seen] set; a rule
    all of whose inputs resolve gives the candidate made of their texts
    concatenated and the union of the feature tags; any other rule gives
    [None], which the caller filters out. *)
Definition inputs_from_gsub_with (self : InputGenerator) (name : string)
    (seen : gset string)
  : outcome (list (option hb_input) * InputGenerator * gset string) :=
  inputs_from_rules self name (font_gsub (font self)) seen.
End InputsFromGsub.

(** [' ' * (width // space + (1 if width % space else 0))] *)
Definition padding (width space : Z) : pystr :=
  replicate (Z.to_nat (width / space + (if decide (width mod space = 0) then 0 else 1)))
            SPACE.

(** Lines 198-202 of [input_from_name]: the candidate of a simple unicode
    mapping. *)
Definition cmap_inputs (self : InputGenerator) (name : string)
  : list (option hb_input) :=
  match reverse_cmap self !! name with
  | Some cp =>
      let text := unichr cp in
      if decide (text ≠ unichr 0) then [Some ([], text)] else []
  | None => []
  end.

(** Lines 211-222 of [input_from_name]: drop the [None] entries, take the
    minimum, pad, store in the memo. *)
Definition choose_input (self : InputGenerator) (name : string)
    (seen : gset string) (pad : bool) (inputs : list (option hb_input))
  : outcome resolved :=
  let inputs := omap id inputs in
  match py_min inputs with
  | None => Ok (None, self, seen)
  | Some (features, text) =>
      text ←!
        (if pad && bool_decide (0 < space_width self) then
           match widths self !! name with
           | Some width => Ok (padding width (space_width self) ++ text)
           | None => Raise (KeyError name)
           end
         else Ok text);
      Ok (Some (features, text),
          set_memo self (<[name := (features, text)]> (memo self)),
          seen)
  end.

(** [InputGenerator.input_from_name(name, seen, pad)].  [depth] bounds the
    nesting of calls; [seen = None] is the default argument, for which the
    call makes a fresh set.  The line [seen.remove(name)] is a comment in the
    source, so nothing leaves the set. *)
Fixpoint input_from_name (depth : nat) (self : InputGenerator) (name : string)
    (seen : option (gset string)) (pad : bool) : outcome resolved :=
  match depth with
  | O => DepthExceeded
  | S depth' =>
      match memo self !! name with
      | Some r => Ok (Some r, self, default ∅ seen)
      | None =>
          let seen := default ∅ seen in
          if decide (name ∈ seen) then Ok (None, self, seen)
          else
            let seen := {[name]} ∪ seen in
            let inputs := cmap_inputs self name in
            '(subs, self, seen) ←!
              inputs_from_gsub_with
                (λ self g seen, input_from_name depth' self g (Some seen) false)
                self name seen;
            choose_input self name seen pad (inputs ++ subs)
      end
  end.

(** [self._inputs_from_gsub(name, seen)] with [depth] nested calls left. *)
Definition _inputs_from_gsub (depth : nat) (self : InputGenerator)
    (name : string) (seen : gset string)
  : outcome (list (option hb_input) * InputGenerator * gset string) :=
  inputs_from_gsub_with
    (λ self g seen, input_from_name depth self g (Some seen) false)
    self name seen.

(** ** Glyph *)

Module Glyph.
Record t := {
  name : string;
  features : list pystr;
  characters : pystr;
  combining : bool;
  key : pystr;
  font : TTFont
}.
End Glyph.

(** The glyph names a resolution can meet: the glyph order and the input
    glyphs of the substitution rules. *)
Definition glyph_names (f : TTFont) : gset string :=
  list_to_set (getGlyphOrder f) ∪
  list_to_set (concat (map rule_inputs (font_gsub f))).

(** The nesting budget [all_inputs] runs [input_from_name] with: one more
    than the number of glyph names ([resolution_total] shows it is never
    used up). *)
Definition recursion_budget (f : TTFont) : nat := S (size (glyph_names f)).

Section Diffenator.

(** [unicodedata.combining]: the canonical combining class of a character. *)
Variable uni_combining : N → N.

(** [Glyph.__init__(name, features, characters, font)] *)
Definition Glyph_init (name : string) (features : list pystr)
    (characters : pystr) (f : TTFont) : Glyph.t :=
  {| Glyph.name := name;
     Glyph.features := features;
     Glyph.characters := characters;
     Glyph.combining :=
       match characters with
       | c :: _ => bool_decide (uni_combining c ≠ 0%N)
       | [] => false
       end;
     Glyph.key := characters ++ concat features;
     Glyph.font := f |}.

(** What the body of the loop appends for [name]. *)
Definition glyph_of_input (name : string) (cur_input : option hb_input)
    (f : TTFont) : Glyph.t :=
  match cur_input with
  | Some (features, characters) =>
      Glyph_init name features (remove_spaces characters) f
  | None => Glyph_init name [[]] [] f
  end.

(** The loop of [all_inputs] over the remaining glyph names; [inputs] is the
    list built so far. *)
Fixpoint all_inputs_loop (depth : nat) (self : InputGenerator)
    (glyph_set : gmap string Z) (names : list string)
    (inputs : list Glyph.t) : outcome (list Glyph.t * InputGenerator) :=
  match names with
  | [] => Ok (inputs, self)
  | name :: names' =>
      match glyph_set !! name with
      | None => Raise (KeyError name)
      | Some width =>
          let is_zero_width := bool_decide (width = 0) in
          '(cur_input, self, _) ←!
            input_from_name depth self name None is_zero_width;
          match cur_input with
          | Some (features, characters) =>
              let characters := remove_spaces characters in
              all_inputs_loop depth self glyph_set names'
                (inputs ++ [Glyph_init name features characters (font self)])
          | None =>
              let features := [[]] in
              all_inputs_loop depth self glyph_set names'
                (inputs ++ [Glyph_init name features [] (font self)])
          end
      end
  end.

(** [InputGenerator.all_inputs()] *)
Definition all_inputs (self : InputGenerator)
  : outcome (list Glyph.t * InputGenerator) :=
  let inputs := [] in
  let glyph_set := getGlyphSet (font self) in
  all_inputs_loop (recursion_budget (font self)) self glyph_set
    (getGlyphOrder (font self)) inputs.

(** ** DFont *)

(** The records the [diffenator.dump] functions build. *)
Variable Table : Type.

(** [DFont._glyphset] is the list [[]] or a dictionary from glyph names. *)
Inductive glyphset_t :=
  | GlyphsetList
  | GlyphsetDict (m : gmap string Glyph.t).

Record DFont := {
  _ttfont : TTFont;
  _glyphset : glyphset_t;
  _axis_locations : option (gmap string Z);
  _axis_order : option (list string);
  _path : option string;
  _src : TTFont;
  _glyphs : option Table;
  _marks : option Table;
  _mkmks : option Table;
  _kerns : option Table;
  _glyph_metrics : option Table;
  _names : option Table;
  _attribs : option Table;
  (** attributes that exist only once assigned *)
  _metrics : option Table;
  _input_map : option glyphset_t
}.

(** [fontTools.varLib.mutator.instantiateVariableFont(src, axes,
    inplace=False)] *)
Variable instantiateVariableFont : TTFont → list (string * Z) → TTFont.

(** The functions of [diffenator.dump]; each reads the [DFont] it is given. *)
Variable DumpAnchors_marks_table : DFont → Table.
Variable DumpAnchors_mkmks_table : DFont → Table.
Variable dump_glyphs : DFont → Table.
Variable dump_glyph_metrics : DFont → Table.
Variable dump_attribs : DFont → Table.
Variable dump_nametable : DFont → Table.
Variable dump_kerning : DFont → Table.

Definition glyphset (self : DFont) : glyphset_t := _glyphset self.
Definition axis_order (self : DFont) : option (list string) := _axis_order self.
Definition axis_locations (self : DFont) : option (gmap string Z) :=
  _axis_locations self.

(** [{g.name: g for g in inputs}] *)
Definition glyphs_by_name (inputs : list Glyph.t) : gmap string Glyph.t :=
  foldl (λ m g, <[Glyph.name g := g]> m) ∅ inputs.

(** [DFont._gen_inputs()] *)
Definition _gen_inputs (self : DFont) : outcome glyphset_t :=
  if negb (has_cmap (_ttfont self)) then Ok GlyphsetList
  else
    '(inputs, _) ←! all_inputs (HbInputGenerator_init (_ttfont self));
    Ok (GlyphsetDict (glyphs_by_name inputs)).

(** [DFont.recalc_input_map()] *)
Definition recalc_input_map (self : DFont) : outcome DFont :=
  m ←! _gen_inputs self;
  Ok {| _ttfont := _ttfont self; _glyphset := _glyphset self;
        _axis_locations := _axis_locations self;
        _axis_order := _axis_order self; _path := _path self;
        _src := _src self; _glyphs := _glyphs self; _marks := _marks self;
        _mkmks := _mkmks self; _kerns := _kerns self;
        _glyph_metrics := _glyph_metrics self; _names := _names self;
        _attribs := _attribs self; _metrics := _metrics self;
        _input_map := Some m |}.

(** [DFont.is_variable] *)
Definition is_variable (self : DFont) : bool :=
  bool_decide (is_Some (font_fvar (_src self))).

(** [DFont.recalc_tables()]: the assignments in order, each dump reading the
    object as the assignments before it left it. *)
Definition recalc_tables (self : DFont) : DFont :=
  let marks_table := DumpAnchors_marks_table self in
  let mkmks_table := DumpAnchors_mkmks_table self in
  let upd (s : DFont) g mk mm k gm n a m :=
    {| _ttfont := _ttfont s; _glyphset := _glyphset s;
       _axis_locations := _axis_locations s; _axis_order := _axis_order s;
       _path := _path s; _src := _src s;
       _glyphs := g; _marks := mk; _mkmks := mm; _kerns := k;
       _glyph_metrics := gm; _names := n; _attribs := a; _metrics := m;
       _input_map := _input_map s |} in
  let s := self in
  let s := upd s (Some (dump_glyphs s)) (_marks s) (_mkmks s) (_kerns s)
             (_glyph_metrics s) (_names s) (_attribs s) (_metrics s) in
  let s := upd s (_glyphs s) (Some marks_table) (_mkmks s) (_kerns s)
             (_glyph_metrics s) (_names s) (_attribs s) (_metrics s) in
  let s := upd s (_glyphs s) (_marks s) (Some mkmks_table) (_kerns s)
             (_glyph_metrics s) (_names s) (_attribs s) (_metrics s) in
  let s := upd s (_glyphs s) (_marks s) (_mkmks s) (_kerns s)
             (Some (dump_glyph_metrics s)) (_names s) (_attribs s)
             (_metrics s) in
  let s := upd s (_glyphs s) (_marks s) (_mkmks s) (_kerns s)
             (_glyph_metrics s) (_names s) (Some (dump_attribs s))
             (_metrics s) in
  let s := upd s (_glyphs s) (_marks s) (_mkmks s) (_kerns s)
             (_glyph_metrics s) (Some (dump_nametable s)) (_attribs s)
             (_metrics s) in
  let s := upd s (_glyphs s) (_marks s) (_mkmks s) (Some (dump_kerning s))
             (_glyph_metrics s) (_names s) (_attribs s) (_metrics s) in
  upd s (_glyphs s) (_marks s) (_mkmks s) (_kerns s)
    (_glyph_metrics s) (_names s) (_attribs s)
    (Some (dump_glyph_metrics s)).

(** [DFont.__init__(file, lazy)]; [ttfont] is the font [TTFont(file)]
    opens. *)
Definition DFont_init (file : option string) (ttfont : TTFont) (lazy : bool)
  : outcome DFont :=
  let self0 :=
    {| _ttfont := ttfont; _glyphset := GlyphsetList;
       _axis_locations := None; _axis_order := None; _path := None;
       _src := ttfont; _glyphs := None; _marks := None; _mkmks := None;
       _kerns := None; _glyph_metrics := None; _names := None;
       _attribs := None; _metrics := None; _input_map := None |} in
  gs ←! (match file with
         | Some _ => _gen_inputs self0
         | None => Ok GlyphsetList
         end);
  let self :=
    {| _ttfont := ttfont; _glyphset := gs;
       _axis_locations := None; _axis_order := None; _path := file;
       _src := ttfont; _glyphs := None; _marks := None; _mkmks := None;
       _kerns := None; _glyph_metrics := None; _names := None;
       _attribs := None; _metrics := None; _input_map := None |} in
  Ok (if lazy then self else recalc_tables self).

(** [{a.axisTag: a.defaultValue for a in self._src['fvar'].axes}] *)
Definition default_locations (fvar_axes : list Axis) : gmap string Z :=
  foldl (λ m a, <[axisTag a := defaultValue a]> m) ∅ fvar_axes.

(** The line [set_variations] prints for a requested axis the font lacks. *)
Definition no_axis_message (axis : string) : string :=
  String.append "font has no axis called " axis.

(** The loop of [set_variations] over the requested axes: [locations] is
    [self._axis_locations], [out] the lines printed so far. *)
Fixpoint apply_axes (axes : list (string * Z)) (locations : gmap string Z)
    (out : list string) : gmap string Z * list string :=
  match axes with
  | [] => (locations, out)
  | (axis, value) :: axes' =>
      if decide (is_Some (locations !! axis)) then
        apply_axes axes' (<[axis := value]> locations) out
      else
        apply_axes axes' locations
          (out ++ [no_axis_message axis])
  end.

(** [DFont.set_variations(axes)].  [axes] is the dictionary of the request,
    as its items in iteration order; [out] collects what is printed. *)
Definition set_variations (self : DFont) (axes : list (string * Z))
    (out : list string) : DFont * list string :=
  match font_fvar (_src self) with
  | Some fvar_axes =>
      let ttfont := instantiateVariableFont (_src self) axes in
      let order := map axisTag fvar_axes in
      let locations := default_locations fvar_axes in
      let '(locations, out) := apply_axes axes locations out in
      (recalc_tables
         {| _ttfont := ttfont; _glyphset := _glyphset self;
            _axis_locations := Some locations; _axis_order := Some order;
            _path := _path self; _src := _src self;
            _glyphs := _glyphs self; _marks := _marks self;
            _mkmks := _mkmks self; _kerns := _kerns self;
            _glyph_metrics := _glyph_metrics self; _names := _names self;
            _attribs := _attribs self; _metrics := _metrics self;
            _input_map := _input_map self |},
       out)
  | None => (self, out ++ ["Not vf"%string])
  end.

(** [DFont.set_variations_from_static(dfont)] *)
Definition set_variations_from_static (self dfont : DFont)
    (out : list string) : DFont * list string :=
  if is_variable self then
    set_variations self [("wght"%string, font_usWeightClass (_ttfont dfont))] out
  else (self, out).

(** What an indexing of [_glyphset] can raise: a dictionary without the key,
    or the list [[]] indexed by a string. *)
Inductive lookup_error :=
  | LookupKeyError (k : string)
  | LookupTypeError.

(** [DFont.glyph(name)]: [self._glyphset[name]]. *)
Definition glyph (self : DFont) (name : string) : Glyph.t + lookup_error :=
  match _glyphset self with
  | GlyphsetList => inr LookupTypeError
  | GlyphsetDict m =>
      match m !! name with
      | Some g => inl g
      | None => inr (LookupKeyError name)
      end
  end.

(** Lines 99-109 of [__main__.main]: how the two fonts of a comparison are
    pinned.  [variations] is the dictionary read from [--vf-instance], as its
    items in order. *)
Definition main_set_variations (font_a font_b : DFont)
    (variations : list (string * Z)) (out : list string)
  : DFont * DFont * list string :=
  if is_variable font_a && negb (is_variable font_b) then
    let '(font_a, out) := set_variations_from_static font_a font_b out in
    (font_a, font_b, out)
  else if negb (is_variable font_a) && is_variable font_b then
    let '(font_b, out) := set_variations_from_static font_b font_a out in
    (font_a, font_b, out)
  else if is_variable font_a && is_variable font_b then
    let '(font_a, out) := set_variations font_a variations out in
    let '(font_b, out) := set_variations font_b variations out in
    (font_a, font_b, out)
  else (font_a, font_b, out).

End Diffenator.

Arguments _ttfont {Table} d.
Arguments _glyphset {Table} d.
Arguments _axis_locations {Table} d.
Arguments _axis_order {Table} d.
Arguments _path {Table} d.
Arguments _src {Table} d.
Arguments _glyphs {Table} d.
Arguments _marks {Table} d.
Arguments _mkmks {Table} d.
Arguments _kerns {Table} d.
Arguments _glyph_metrics {Table} d.
Arguments _names {Table} d.
Arguments _attribs {Table} d.
Arguments _metrics {Table} d.
Arguments _input_map {Table} d.
Arguments glyphset {Table} self.
Arguments axis_order {Table} self.
Arguments axis_locations {Table} self.
Arguments is_variable {Table} self.
Arguments _gen_inputs uni_combining {Table} self.
Arguments recalc_input_map uni_combining {Table} self.
Arguments recalc_tables {Table}.
Arguments DFont_init uni_combining {Table}.
Arguments set_variations {Table}.
Arguments set_variations_from_static {Table}.
Arguments glyph {Table} self name.
Arguments main_set_variations {Table}.

(** ** Predicates on generators and fonts *)

(** The state after a call, against the state before it: the font tables are
    untouched, [seen] and the memo only grow, and no name that was in [seen]
    gets a memo entry. *)
Record extends (self : InputGenerator) (seen : gset string)
    (self' : InputGenerator) (seen' : gset string) : Prop := {
  ext_font : font self' = font self;
  ext_reverse_cmap : reverse_cmap self' = reverse_cmap self;
  ext_widths : widths self' = widths self;
  ext_space_width : space_width self' = space_width self;
  ext_seen : seen ⊆ seen';
  ext_memo : memo self ⊆ memo self';
  ext_frame : ∀ k, k ∈ seen → memo self' !! k = memo self !! k
}.

(** [U] holds every glyph name the rules of [f] ask to resolve. *)
Definition rules_within (U : gset string) (f : TTFont) : Prop :=
  ∀ r, r ∈ font_gsub f → ∀ g, g ∈ rule_inputs r → g ∈ U.

(** The generator can look up every glyph of the glyph order: the glyph set
    and [widths] know each name. *)
Definition wf_generator (self : InputGenerator) : Prop :=
  Forall (λ name, is_Some (getGlyphSet (font self) !! name) ∧
                  is_Some (widths self !! name))
         (getGlyphOrder (font self)).

(** The ceiling of [w / s], for [0 < s]. *)
Definition ceil_div (w s : Z) : Z := - ((- w) / s).

(** Every code point of the reverse character map is one [unichr] returns
    a string for. *)
Definition cmap_in_range (self : InputGenerator) : Prop :=
  map_Forall (λ _ cp, (cp < unichr_max)%N) (reverse_cmap self).

(** ** Sample fonts *)

(** A stand-in for [unicodedata.combining]: class 230 for U+0301. *)
Definition sample_combining (c : N) : N :=
  if decide (c = 769%N) then 230%N else 0%N.

Definition sample_rule (inputs : list string) (output : string)
    (tag : string) : Rule :=
  {| rule_inputs := inputs; rule_output := output;
     rule_features := [pystr_of tag] |}.

(** Five glyphs: the space, "A", its small capital reached through [smcp],
    a non-spacing acute accent 300 units wide, and a glyph with neither a
    code point nor a rule. *)
Definition font_marks : TTFont :=
  {| has_cmap := true;
     getGlyphOrder := ["space"; "A"; "acutecomb"; "A.sc"; "orphan"]%string;
     getGlyphSet :=
       list_to_map [("space", 250); ("A", 600); ("acutecomb", 0);
                    ("A.sc", 560); ("orphan", 500)]%string;
     font_reverse_cmap :=
       list_to_map [("space", 32%N); ("A", 65%N); ("acutecomb", 769%N)]%string;
     font_widths :=
       list_to_map [("space", 250); ("A", 600); ("acutecomb", 300);
                    ("A.sc", 560); ("orphan", 500)]%string;
     font_space_width := 250;
     font_gsub := [sample_rule ["A"] "A.sc" "smcp"]%string;
     font_fvar := None;
     font_usWeightClass := 400 |}.

(** A font of glyphs with unit metrics over a given glyph order, character
    map and rule list. *)
Definition font_of (order : list string) (rcmap : list (string * N))
    (rules : list Rule) : TTFont :=
  {| has_cmap := true;
     getGlyphOrder := order;
     getGlyphSet := list_to_map (map (λ n, (n, 500)) order);
     font_reverse_cmap := list_to_map rcmap;
     font_widths := list_to_map (map (λ n, (n, 500)) order);
     font_space_width := 250;
     font_gsub := rules;
     font_fvar := None;
     font_usWeightClass := 400 |}.

(** Glyph "A" made only from "B" and glyph "B" only from "A". *)
Definition font_cycle : TTFont :=
  font_of ["A"; "B"]%string []
    [sample_rule ["B"] "A" "aalt"; sample_rule ["A"] "B" "salt"]%string.

(** Two fonts with the same five rules; only the first two trade places. *)
Definition rules_tail : list Rule :=
  [sample_rule ["Q"] "P" "ffff"; sample_rule ["P"] "Q" "aaaa";
   sample_rule ["R"] "Q" "zzzz"]%string.
Definition font_order1 : TTFont :=
  font_of ["X"; "P"; "Q"; "R"]%string [("P", 112%N); ("R", 114%N)]%string
    ([sample_rule ["P"] "X" "mmmm"; sample_rule ["Q"] "X" "bbbb"]%string
       ++ rules_tail).
Definition font_order2 : TTFont :=
  font_of ["X"; "P"; "Q"; "R"]%string [("P", 112%N); ("R", 114%N)]%string
    ([sample_rule ["Q"] "X" "bbbb"; sample_rule ["P"] "X" "mmmm"]%string
       ++ rules_tail).

(** A ligature "X" of "H" and "G", where "G" is made from "H" and "H" also
    from "G". *)
Definition font_liga : TTFont :=
  font_of ["X"; "G"; "H"]%string [("H", 104%N)]%string
    [sample_rule ["H"; "G"] "X" "liga"; sample_rule ["G"] "H" "ffff";
     sample_rule ["H"] "G" "gggg"]%string.

(** Two non-spacing accents 300 units wide and an alternate mark without a
    code point, made from the acute by [salt] and by [aalt] and from the grave
    by [aalt]; the grave has a code point and is also made from the acute by
    [ccmp]. *)
Definition font_alt : TTFont :=
  {| has_cmap := true;
     getGlyphOrder := ["space"; "acutecomb"; "gravecomb"; "mark.alt"]%string;
     getGlyphSet :=
       list_to_map [("space", 250); ("acutecomb", 0); ("gravecomb", 0);
                    ("mark.alt", 0)]%string;
     font_reverse_cmap :=
       list_to_map [("space", 32%N); ("acutecomb", 769%N);
                    ("gravecomb", 768%N)]%string;
     font_widths :=
       list_to_map [("space", 250); ("acutecomb", 300); ("gravecomb", 300);
                    ("mark.alt", 300)]%string;
     font_space_width := 250;
     font_gsub :=
       [sample_rule ["acutecomb"] "mark.alt" "salt";
        sample_rule ["acutecomb"] "mark.alt" "aalt";
        sample_rule ["gravecomb"] "mark.alt" "aalt";
        sample_rule ["acutecomb"] "gravecomb" "ccmp"]%string;
     font_fvar := None;
     font_usWeightClass := 400 |}.

(** The generator of [font_alt]: fresh, after the acute was resolved, and
    after both accents were. *)
Definition sample_gen_alt : InputGenerator := HbInputGenerator_init font_alt.
Definition sample_gen_alt_acute : InputGenerator :=
  set_memo sample_gen_alt {["acutecomb"%string := ([], [769%N])]}.
Definition sample_gen_alt_accents : InputGenerator :=
  set_memo sample_gen_alt
    (<["gravecomb"%string := ([], [768%N])]>
       {["acutecomb"%string := ([], [769%N])]}).

(** A variable font with the one axis "wght", and a stand-in for
    [instantiateVariableFont] that pins it: the instance has no [fvar] table
    and its own metrics for "A". *)
Definition font_vf : TTFont :=
  {| has_cmap := true;
     getGlyphOrder := ["space"; "A"]%string;
     getGlyphSet := list_to_map [("space", 250); ("A", 600)]%string;
     font_reverse_cmap := list_to_map [("space", 32%N); ("A", 65%N)]%string;
     font_widths := list_to_map [("space", 250); ("A", 600)]%string;
     font_space_width := 250;
     font_gsub := [];
     font_fvar := Some [{| axisTag := "wght"; defaultValue := 400 |}];
     font_usWeightClass := 400 |}.

Definition sample_instantiate (src : TTFont) (axes : list (string * Z))
  : TTFont :=
  {| has_cmap := has_cmap src;
     getGlyphOrder := getGlyphOrder src;
     getGlyphSet := <["A"%string := 650]> (getGlyphSet src);
     font_reverse_cmap := font_reverse_cmap src;
     font_widths := <["A"%string := 650]> (font_widths src);
     font_space_width := font_space_width src;
     font_gsub := font_gsub src;
     font_fvar := None;
     font_usWeightClass := font_usWeightClass src |}.

(** Dump functions that record nothing. *)
Definition sample_dump (d : DFont unit) : unit := tt.

(** The [DFont] functions over the stand-ins. *)
Definition sample_DFont_init (file : option string) (ttfont : TTFont)
    (lazy : bool) : outcome (DFont unit) :=
  DFont_init sample_combining sample_dump sample_dump sample_dump sample_dump
    sample_dump sample_dump sample_dump file ttfont lazy.

Definition sample_set_variations (self : DFont unit)
    (axes : list (string * Z)) (out : list string)
  : DFont unit * list string :=
  set_variations sample_instantiate sample_dump sample_dump sample_dump
    sample_dump sample_dump sample_dump sample_dump self axes out.

(** A [DFont] for [font_vf] before its tables are computed. *)
Definition sample_dfont : DFont unit :=
  {| _ttfont := font_vf; _glyphset := GlyphsetList;
     _axis_locations := None; _axis_order := None;
     _path := Some "VF.ttf"%string; _src := font_vf;
     _glyphs := None; _marks := None; _mkmks := None;
     _kerns := None; _glyph_metrics := None; _names := None;
     _attribs := None; _metrics := None; _input_map := None |}.

(** The generator of [font_marks], fresh and after "A" was resolved. *)
Definition sample_gen : InputGenerator := HbInputGenerator_init font_marks.
Definition sample_gen_A : InputGenerator :=
  set_memo sample_gen (<["A"%string := ([], [65%N])]> (memo sample_gen)).

(** [font_marks] with a glyph order that names a glyph the glyph set lacks. *)
Definition font_missing : TTFont :=
  {| has_cmap := true;
     getGlyphOrder := ["space"; "A"; "ghost"; "orphan"]%string;
     getGlyphSet := getGlyphSet font_marks;
     font_reverse_cmap := font_reverse_cmap font_marks;
     font_widths := font_widths font_marks;
     font_space_width := 250;
     font_gsub := [];
     font_fvar := None;
     font_usWeightClass := 400 |}.

(** A variable font with a width axis only, and a static font of weight
    class 700. *)
Definition font_wdth : TTFont :=
  {| has_cmap := true;
     getGlyphOrder := ["space"; "A"]%string;
     getGlyphSet := list_to_map [("space", 250); ("A", 600)]%string;
     font_reverse_cmap := list_to_map [("space", 32%N); ("A", 65%N)]%string;
     font_widths := list_to_map [("space", 250); ("A", 600)]%string;
     font_space_width := 250;
     font_gsub := [];
     font_fvar := Some [{| axisTag := "wdth"; defaultValue := 100 |}];
     font_usWeightClass := 400 |}.

Definition font_bold : TTFont :=
  {| has_cmap := true;
     getGlyphOrder := ["space"; "A"]%string;
     getGlyphSet := list_to_map [("space", 260); ("A", 640)]%string;
     font_reverse_cmap := list_to_map [("space", 32%N); ("A", 65%N)]%string;
     font_widths := list_to_map [("space", 260); ("A", 640)]%string;
     font_space_width := 260;
     font_gsub := [];
     font_fvar := None;
     font_usWeightClass := 700 |}.

(** A [DFont] around a font, before its tables are computed. *)
Definition sample_dfont_of (f : TTFont) : DFont unit :=
  {| _ttfont := f; _glyphset := GlyphsetList;
     _axis_locations := None; _axis_order := None;
     _path := Some "font.ttf"%string; _src := f;
     _glyphs := None; _marks := None; _mkmks := None;
     _kerns := None; _glyph_metrics := None; _names := None;
     _attribs := None; _metrics := None; _input_map := None |}.

Definition sample_set_variations_from_static (self dfont : DFont unit)
    (out : list string) : DFont unit * list string :=
  set_variations_from_static sample_instantiate sample_dump sample_dump
    sample_dump sample_dump sample_dump sample_dump sample_dump self dfont out.

Definition sample_main_set_variations (font_a font_b : DFont unit)
    (variations : list (string * Z)) (out : list string)
  : DFont unit * DFont unit * list string :=
  main_set_variations sample_instantiate sample_dump sample_dump sample_dump
    sample_dump sample_dump sample_dump sample_dump font_a font_b variations
    out.

(** A variable font with a weight and a width axis. *)
Definition font_vf2 : TTFont :=
  {| has_cmap := true;
     getGlyphOrder := ["space"; "A"]%string;
     getGlyphSet := list_to_map [("space", 240); ("A", 580)]%string;
     font_reverse_cmap := list_to_map [("space", 32%N); ("A", 65%N)]%string;
     font_widths := list_to_map [("space", 240); ("A", 580)]%string;
     font_space_width := 240;
     font_gsub := [];
     font_fvar := Some [{| axisTag := "wght"; defaultValue := 300 |};
                        {| axisTag := "wdth"; defaultValue := 100 |}];
     font_usWeightClass := 300 |}.

(** * Properties *)

(** ** The ordering is a total order *)

Section LexFacts.
Context {A : Type} (cmp : A → A → comparison).
Hypothesis cmp_eq : ∀ x y, cmp x y = Eq ↔ x = y.
Hypothesis cmp_antisym : ∀ x y, cmp y x = CompOpp (cmp x y).
Hypothesis cmp_trans : ∀ x y z, cmp x y = Lt → cmp y z = Lt → cmp x z = Lt.

Lemma lex_compare_eq (xs ys : list A) : lex_compare cmp xs ys = Eq ↔ xs = ys.
Proof.
  revert ys; induction xs as [|x xs IH]; intros [|y ys]; simpl; try done.
  destruct (cmp x y) eqn:E.
  - apply cmp_eq in E as ->. rewrite IH. split; [by intros -> | by intros [= ->]].
  - split; [done | intros [= -> _]].
    assert (cmp y y = Eq) by by apply cmp_eq. congruence.
  - split; [done | intros [= -> _]].
    assert (cmp y y = Eq) by by apply cmp_eq. congruence.
Qed.

Lemma lex_compare_antisym (xs ys : list A) :
  lex_compare cmp ys xs = CompOpp (lex_compare cmp xs ys).
Proof.
  revert ys; induction xs as [|x xs IH]; intros [|y ys]; simpl; try done.
  rewrite (cmp_antisym x y). destruct (cmp x y); simpl; auto.
Qed.

Lemma lex_compare_trans (xs ys zs : list A) :
  lex_compare cmp xs ys = Lt → lex_compare cmp ys zs = Lt →
  lex_compare cmp xs zs = Lt.
Proof.
  revert ys zs; induction xs as [|x xs IH]; intros [|y ys] [|z zs]; simpl;
    try done.
  destruct (cmp x y) eqn:Exy; try done.
  - apply cmp_eq in Exy as ->.
    destruct (cmp y z); try done. apply IH.
  - destruct (cmp y z) eqn:Eyz; try done.
    + apply cmp_eq in Eyz as ->. by rewrite Exy.
    + by rewrite (cmp_trans _ _ _ Exy Eyz).
Qed.
End LexFacts.

Lemma N_compare_trans (x y z : N) :
  (x ?= y)%N = Lt → (y ?= z)%N = Lt → (x ?= z)%N = Lt.
Proof. rewrite !N.compare_lt_iff. lia. Qed.

Lemma str_compare_eq (s t : pystr) : str_compare s t = Eq ↔ s = t.
Proof. apply lex_compare_eq, N.compare_eq_iff. Qed.

Lemma str_compare_antisym (s t : pystr) :
  str_compare t s = CompOpp (str_compare s t).
Proof. apply lex_compare_antisym. intros; apply N.compare_antisym. Qed.

Lemma str_compare_trans (s t u : pystr) :
  str_compare s t = Lt → str_compare t u = Lt → str_compare s u = Lt.
Proof.
  apply lex_compare_trans; [apply N.compare_eq_iff | apply N_compare_trans].
Qed.

Lemma tuple_compare_eq (s t : list pystr) : tuple_compare s t = Eq ↔ s = t.
Proof. apply lex_compare_eq, str_compare_eq. Qed.

Lemma tuple_compare_antisym (s t : list pystr) :
  tuple_compare t s = CompOpp (tuple_compare s t).
Proof. apply lex_compare_antisym, str_compare_antisym. Qed.

Lemma tuple_compare_trans (s t u : list pystr) :
  tuple_compare s t = Lt → tuple_compare t u = Lt → tuple_compare s u = Lt.
Proof. apply lex_compare_trans; [apply str_compare_eq | apply str_compare_trans]. Qed.

(** The empty tuple sorts before every other tuple. *)
Lemma tuple_compare_nil (t : list pystr) : tuple_compare [] t ≠ Gt.
Proof. by destruct t. Qed.

Lemma input_compare_eq (a b : hb_input) : input_compare a b = Eq ↔ a = b.
Proof.
  destruct a as [fa ta], b as [fb tb]; unfold input_compare; simpl.
  destruct (tuple_compare fa fb) eqn:E.
  - apply tuple_compare_eq in E as ->. rewrite str_compare_eq.
    split; [by intros -> | by intros [= ->]].
  - split; [done | intros [= -> _]].
    assert (tuple_compare fb fb = Eq) by by apply tuple_compare_eq. congruence.
  - split; [done | intros [= -> _]].
    assert (tuple_compare fb fb = Eq) by by apply tuple_compare_eq. congruence.
Qed.

Lemma input_compare_antisym (a b : hb_input) :
  input_compare b a = CompOpp (input_compare a b).
Proof.
  unfold input_compare. rewrite (tuple_compare_antisym a.1 b.1).
  destruct (tuple_compare a.1 b.1); simpl; auto using str_compare_antisym.
Qed.

Lemma input_compare_trans (a b c : hb_input) :
  input_compare a b = Lt → input_compare b c = Lt → input_compare a c = Lt.
Proof.
  unfold input_compare.
  destruct (tuple_compare a.1 b.1) eqn:Eab; try done.
  - apply tuple_compare_eq in Eab. rewrite Eab.
    destruct (tuple_compare b.1 c.1); try done. apply str_compare_trans.
  - destruct (tuple_compare b.1 c.1) eqn:Ebc; try done.
    + apply tuple_compare_eq in Ebc. rewrite <- Ebc, Eab. done.
    + by rewrite (tuple_compare_trans _ _ _ Eab Ebc).
Qed.

Lemma input_le_refl (a : hb_input) : input_le a a.
Proof.
  unfold input_le. assert (input_compare a a = Eq) by by apply input_compare_eq.
  congruence.
Qed.

Lemma input_le_trans (a b c : hb_input) :
  input_le a b → input_le b c → input_le a c.
Proof.
  unfold input_le. intros Hab Hbc.
  destruct (input_compare a b) eqn:Eab; try done.
  - apply input_compare_eq in Eab as ->. done.
  - destruct (input_compare b c) eqn:Ebc; try done.
    + apply input_compare_eq in Ebc as <-. congruence.
    + rewrite (input_compare_trans _ _ _ Eab Ebc). done.
Qed.

Lemma input_le_antisym (a b : hb_input) : input_le a b → input_le b a → a = b.
Proof.
  unfold input_le. rewrite (input_compare_antisym a b).
  destruct (input_compare a b) eqn:E; simpl; try done.
  intros _ _. by apply input_compare_eq.
Qed.

Lemma input_ltb_false_le (x best : hb_input) :
  input_ltb x best = false → input_le best x.
Proof.
  unfold input_ltb, input_le. rewrite (input_compare_antisym x best).
  destruct (input_compare x best); simpl; done.
Qed.

Lemma input_ltb_true_le (x best : hb_input) :
  input_ltb x best = true → input_le x best.
Proof. unfold input_ltb, input_le. destruct (input_compare x best); done. Qed.

(** ** [min] returns a least element of its argument *)

Lemma py_min_from_in (best : hb_input) (l : list hb_input) :
  In (py_min_from best l) (best :: l).
Proof.
  revert best; induction l as [|x l IH]; intros best; simpl; [auto|].
  destruct (IH (if input_ltb x best then x else best)) as [H|H]; [|auto].
  destruct (input_ltb x best); auto.
Qed.

Lemma py_min_from_le_best (best : hb_input) (l : list hb_input) :
  input_le (py_min_from best l) best.
Proof.
  revert best; induction l as [|x l IH]; intros best; simpl.
  - apply input_le_refl.
  - destruct (input_ltb x best) eqn:E.
    + eapply input_le_trans; [apply IH | by apply input_ltb_true_le].
    + apply IH.
Qed.

Lemma py_min_from_le (best : hb_input) (l : list hb_input) (c : hb_input) :
  In c (best :: l) → input_le (py_min_from best l) c.
Proof.
  revert best; induction l as [|x l IH]; intros best; simpl.
  - intros [<-|[]]. apply input_le_refl.
  - intros [<-|[<-|Hc]].
    + apply (py_min_from_le_best _ (x :: l)).
    + destruct (input_ltb x best) eqn:E.
      * apply py_min_from_le_best.
      * eapply input_le_trans; [apply py_min_from_le_best|].
        by apply input_ltb_false_le.
    + apply IH. by right.
Qed.

Lemma py_min_in (l : list hb_input) (m : hb_input) :
  py_min l = Some m → In m l.
Proof. destruct l; [done|]. intros [= <-]. apply py_min_from_in. Qed.

Lemma py_min_le (l : list hb_input) (m c : hb_input) :
  py_min l = Some m → In c l → input_le m c.
Proof. destruct l; [done|]. intros [= <-]. apply py_min_from_le. Qed.

Lemma py_min_is_Some (l : list hb_input) : l ≠ [] → is_Some (py_min l).
Proof. destruct l; [done|]. by eexists. Qed.

(** The minimum depends on the elements of the list only. *)
Lemma py_min_perm (l l' : list hb_input) (m : hb_input) :
  Permutation l l' → py_min l = Some m → py_min l' = Some m.
Proof.
  intros Hp Hm.
  destruct (py_min l') as [m'|] eqn:Hm'.
  - f_equal. apply input_le_antisym.
    + eapply py_min_le; [done|]. eapply Permutation_in; [symmetry|]; [done|].
      by eapply py_min_in.
    + eapply py_min_le; [done|]. eapply Permutation_in; [done|].
      by eapply py_min_in.
  - destruct l'; [|done]. apply Permutation_sym, Permutation_nil in Hp.
    by subst.
Qed.

(** ** What a resolution call does to the generator and to [seen] *)

Lemma obind_Ok {A B} (m : outcome A) (k : A → outcome B) (b : B) :
  obind m k = Ok b → ∃ a, m = Ok a ∧ k a = Ok b.
Proof. destruct m; simpl; [eauto | done | done]. Qed.

Ltac ok_inv H :=
  let a := fresh "a" in
  let Hm := fresh "Hm" in
  apply obind_Ok in H as (a & Hm & H).


Lemma extends_refl self seen : extends self seen self seen.
Proof. by split. Qed.

Lemma extends_trans self seen self1 seen1 self2 seen2 :
  extends self seen self1 seen1 → extends self1 seen1 self2 seen2 →
  extends self seen self2 seen2.
Proof.
  intros [] []; split; try congruence.
  - set_solver.
  - by etrans.
  - intros k Hk. rewrite ext_frame1; [by apply ext_frame0 | set_solver].
Qed.

Lemma extends_weaken self seen0 seen self' seen' :
  seen0 ⊆ seen → extends self seen self' seen' → extends self seen0 self' seen'.
Proof. intros Hs []; split; try done; [set_solver | auto]. Qed.

Section GsubFacts.
Variable rec : InputGenerator → string → gset string → outcome resolved.
Hypothesis rec_extends : ∀ self g seen r self' seen',
  rec self g seen = Ok (r, self', seen') → extends self seen self' seen'.

Lemma resolve_glyphs_extends self glyphs seen rs self' seen' :
  resolve_glyphs rec self glyphs seen = Ok (rs, self', seen') →
  extends self seen self' seen'.
Proof.
  revert self seen rs self' seen'.
  induction glyphs as [|g glyphs IH]; intros self seen rs self' seen' H; simpl in H.
  - injection H as <- <- <-. apply extends_refl.
  - ok_inv H. destruct a as [[r self1] seen1].
    ok_inv H. destruct a as [[rs1 self2] seen2].
    injection H as <- <- <-.
    eapply extends_trans; [by eapply rec_extends | by eapply IH].
Qed.

Lemma inputs_from_rules_extends self name rules seen cs self' seen' :
  inputs_from_rules rec self name rules seen = Ok (cs, self', seen') →
  extends self seen self' seen'.
Proof.
  revert self seen cs self' seen'.
  induction rules as [|r rules IH]; intros self seen cs self' seen' H; simpl in H.
  - injection H as <- <- <-. apply extends_refl.
  - destruct (decide (rule_output r = name)); [|by eapply IH].
    ok_inv H. destruct a as [[rs self1] seen1].
    ok_inv H. destruct a as [[cs1 self2] seen2].
    injection H as <- <- <-.
    eapply extends_trans; [by eapply resolve_glyphs_extends | by eapply IH].
Qed.
End GsubFacts.

Lemma choose_input_inv self name seen pad inputs r self' seen' :
  choose_input self name seen pad inputs = Ok (r, self', seen') →
  seen' = seen ∧
  ((r = None ∧ self' = self ∧ omap id inputs = []) ∨
   (∃ v, r = Some v ∧ self' = set_memo self (<[name := v]> (memo self)))).
Proof.
  unfold choose_input. destruct (omap id inputs) as [|c cs] eqn:E; simpl.
  - intros [= <- <- <-]. auto.
  - destruct (py_min_from c cs) as [features text].
    intros H. ok_inv H. injection H as <- <- <-. eauto.
Qed.

Lemma input_from_name_state depth self name seen pad r self' seen' :
  input_from_name depth self name seen pad = Ok (r, self', seen') →
  extends self (default ∅ seen) self' seen' ∧
  memo self' !! name = r ∧
  (memo self !! name = None → name ∈ seen').
Proof.
  revert self name seen pad r self' seen'.
  induction depth as [|depth IH]; intros self name seen pad r self' seen' H;
    simpl in H; [done|].
  destruct (memo self !! name) as [v|] eqn:Hmemo.
  { injection H as <- <- <-. split; [apply extends_refl | done]. }
  destruct (decide (name ∈ default ∅ seen)) as [Hin|Hnin].
  { injection H as <- <- <-. split; [apply extends_refl | done]. }
  ok_inv H. destruct a as [[subs self1] seen1].
  assert (Hext : extends self ({[name]} ∪ default ∅ seen) self1 seen1).
  { eapply inputs_from_rules_extends; [|exact Hm].
    intros s g sn r0 s' sn' Hrec. by apply (IH _ _ (Some sn)) in Hrec as [? _]. }
  assert (Hname : memo self1 !! name = None).
  { rewrite (ext_frame _ _ _ _ Hext); [done | set_solver]. }
  apply choose_input_inv in H as [-> Hr].
  assert (Hseen : name ∈ seen1).
  { apply (ext_seen _ _ _ _ Hext). set_solver. }
  destruct Hr as [(-> & -> & _)|(v & -> & ->)].
  - split; [|done]. eapply extends_weaken; [|done]. set_solver.
  - split; [|split; [apply lookup_insert_eq | done]].
    destruct Hext. split; simpl; try done.
    + set_solver.
    + etrans; [done|]. by apply insert_subseteq.
    + intros k Hk. rewrite lookup_insert_ne; [|set_solver].
      apply ext_frame0. set_solver.
Qed.

(** ** The recursion budget is never used up *)


Lemma rules_within_glyph_names (f : TTFont) : rules_within (glyph_names f) f.
Proof.
  intros r Hr g Hg. unfold glyph_names. apply elem_of_union_r.
  apply elem_of_list_to_set, list_elem_of_In, in_concat.
  exists (rule_inputs r). split; [|by apply list_elem_of_In].
  apply in_map. by apply list_elem_of_In.
Qed.

Lemma size_difference_add (U seen : gset string) (name : string) :
  name ∈ U → name ∉ seen →
  (size (U ∖ ({[name]} ∪ seen)) < size (U ∖ seen))%nat.
Proof.
  intros HU Hseen. apply subset_size. split; [set_solver|].
  intros Hsub. assert (name ∈ U ∖ seen) as Hn by set_solver.
  apply Hsub in Hn. set_solver.
Qed.

Lemma size_difference_mono (U seen seen' : gset string) :
  seen ⊆ seen' → (size (U ∖ seen') ≤ size (U ∖ seen))%nat.
Proof. intros. apply subseteq_size. set_solver. Qed.

Section GsubTotal.
Variable rec : InputGenerator → string → gset string → outcome resolved.
Variable U : gset string.
Variable n : nat.
Hypothesis rec_extends : ∀ self g seen r self' seen',
  rec self g seen = Ok (r, self', seen') → extends self seen self' seen'.
Hypothesis rec_total : ∀ self g seen,
  rules_within U (font self) → g ∈ U → (size (U ∖ seen) < n)%nat →
  ∃ res, rec self g seen = Ok res.

Lemma resolve_glyphs_total self glyphs seen :
  rules_within U (font self) → (∀ g, g ∈ glyphs → g ∈ U) →
  (size (U ∖ seen) < n)%nat →
  ∃ res, resolve_glyphs rec self glyphs seen = Ok res.
Proof.
  revert self seen. induction glyphs as [|g glyphs IH]; intros self seen Hw HU Hn;
    simpl; [eauto|].
  destruct (rec_total self g seen) as [[[r self1] seen1] Hrec];
    [done | apply HU; left | done |].
  rewrite Hrec; simpl.
  pose proof (rec_extends _ _ _ _ _ _ Hrec) as Hext.
  destruct (IH self1 seen1) as [[[rs self2] seen2] Hrest].
  - by rewrite (ext_font _ _ _ _ Hext).
  - intros g' Hg'. apply HU. by right.
  - eapply Nat.le_lt_trans; [|done].
    apply size_difference_mono, (ext_seen _ _ _ _ Hext).
  - rewrite Hrest; simpl. eauto.
Qed.

Lemma inputs_from_rules_total self name rules seen :
  rules_within U (font self) →
  (∀ r, r ∈ rules → ∀ g, g ∈ rule_inputs r → g ∈ U) →
  (size (U ∖ seen) < n)%nat →
  ∃ res, inputs_from_rules rec self name rules seen = Ok res.
Proof.
  revert self seen. induction rules as [|r rules IH]; intros self seen Hw HU Hn;
    simpl; [eauto|].
  destruct (decide (rule_output r = name)).
  - destruct (resolve_glyphs_total self (rule_inputs r) seen)
      as [[[rs self1] seen1] Hres]; [done | apply HU; left | done |].
    rewrite Hres; simpl.
    pose proof (resolve_glyphs_extends rec rec_extends _ _ _ _ _ _ Hres) as Hext.
    destruct (IH self1 seen1) as [[[cs self2] seen2] Hrest].
    + by rewrite (ext_font _ _ _ _ Hext).
    + intros r' Hr'. apply HU. by right.
    + eapply Nat.le_lt_trans; [|done].
      apply size_difference_mono, (ext_seen _ _ _ _ Hext).
    + rewrite Hrest; simpl. eauto.
  - apply IH; [done | | done]. intros r' Hr'. apply HU. by right.
Qed.
End GsubTotal.

Lemma input_from_name_extends depth self g seen r self' seen' :
  input_from_name depth self g (Some seen) false = Ok (r, self', seen') →
  extends self seen self' seen'.
Proof. intros H. by apply input_from_name_state in H as [? _]. Qed.

Lemma choose_input_total self name seen pad inputs :
  (pad = true → is_Some (widths self !! name)) →
  ∃ res, choose_input self name seen pad inputs = Ok res.
Proof.
  intros Hw. unfold choose_input.
  destruct (py_min (omap id inputs)) as [[features text]|]; [|eauto].
  destruct pad; simpl; [|eauto].
  destruct (bool_decide (0 < space_width self)); simpl; [|eauto].
  destruct (Hw eq_refl) as [w ->]. simpl. eauto.
Qed.

Lemma input_from_name_total (U : gset string) depth self name seen pad :
  rules_within U (font self) → name ∈ U →
  (size (U ∖ default ∅ seen) < depth)%nat →
  (pad = true → is_Some (widths self !! name)) →
  ∃ res, input_from_name depth self name seen pad = Ok res.
Proof.
  revert self name seen pad.
  induction depth as [|depth IH]; intros self name seen pad Hw HU Hn Hpad;
    [lia|]. simpl.
  destruct (memo self !! name); [eauto|].
  destruct (decide (name ∈ default ∅ seen)) as [|Hnin]; [eauto|].
  destruct (inputs_from_rules_total
              (λ self g seen, input_from_name depth self g (Some seen) false)
              U depth) with (self := self) (name := name)
              (rules := font_gsub (font self))
              (seen := {[name]} ∪ default ∅ seen)
    as [[[subs self1] seen1] Hsubs]; try done.
  - intros s g sn r s' sn'. apply input_from_name_extends.
  - intros s g sn Hs Hg Hsz. by apply IH.
  - pose proof (size_difference_add U (default ∅ seen) name HU Hnin). lia.
  - unfold inputs_from_gsub_with. rewrite Hsubs; simpl.
    apply choose_input_total.
    apply inputs_from_rules_extends in Hsubs;
      [|intros s g sn r s' sn'; apply input_from_name_extends].
    by rewrite (ext_widths _ _ _ _ Hsubs).
Qed.

(** ** The loop of [all_inputs] *)


Section AllInputsFacts.
Variable uni_combining : N → N.


Lemma all_inputs_loop_cons depth self glyph_set name names inputs :
  all_inputs_loop uni_combining depth self glyph_set (name :: names) inputs =
  match glyph_set !! name with
  | None => Raise (KeyError name)
  | Some width =>
      '(cur_input, self1, _) ←!
        input_from_name depth self name None (bool_decide (width = 0));
      all_inputs_loop uni_combining depth self1 glyph_set names
        (inputs ++ [glyph_of_input uni_combining name cur_input (font self1)])
  end.
Proof.
  simpl. destruct (glyph_set !! name); [|done].
  destruct (input_from_name _ _ _ _ _) as [[[[[f c]|] s] sn]| |]; done.
Qed.

Lemma all_inputs_loop_app depth self glyph_set pre post inputs :
  all_inputs_loop uni_combining depth self glyph_set (pre ++ post) inputs =
  '(inputs1, self1) ←!
    all_inputs_loop uni_combining depth self glyph_set pre inputs;
  all_inputs_loop uni_combining depth self1 glyph_set post inputs1.
Proof.
  revert self inputs. induction pre as [|name pre IH]; intros self inputs;
    [done|].
  rewrite <- app_comm_cons, !all_inputs_loop_cons.
  destruct (glyph_set !! name); [|done].
  destruct (input_from_name _ _ _ _ _) as [[[r s] sn]| |]; simpl; [|done..].
  apply IH.
Qed.

Lemma remove_spaces_no_space (s : pystr) : SPACE ∉ remove_spaces s.
Proof. unfold remove_spaces. rewrite list_elem_of_filter. naive_solver. Qed.

Lemma glyph_of_input_name name r f :
  Glyph.name (glyph_of_input uni_combining name r f) = name.
Proof. by destruct r as [[? ?]|]. Qed.

Lemma glyph_of_input_no_space name r f :
  SPACE ∉ Glyph.characters (glyph_of_input uni_combining name r f).
Proof.
  destruct r as [[? ?]|]; simpl; [apply remove_spaces_no_space | set_solver].
Qed.

(** Under the budget the loop runs to its end: it appends one glyph per
    name, in order, and leaves the font tables of the generator alone. *)
Lemma all_inputs_loop_total (U : gset string) depth self glyph_set names inputs :
  rules_within U (font self) → (size U < depth)%nat →
  Forall (λ name, name ∈ U ∧ is_Some (glyph_set !! name) ∧
                  is_Some (widths self !! name)) names →
  ∃ out self',
    all_inputs_loop uni_combining depth self glyph_set names inputs
      = Ok (inputs ++ out, self') ∧
    map Glyph.name out = names ∧
    Forall (λ g, (SPACE ∉ Glyph.characters g) ∧ Glyph.font g = font self) out ∧
    font self' = font self ∧ widths self' = widths self.
Proof.
  intros Hw Hsz Hnames. revert self inputs Hw Hnames.
  induction names as [|name names IH]; intros self inputs Hw Hnames.
  { exists [], self. simpl. by rewrite app_nil_r. }
  apply Forall_cons in Hnames as [(HU & [w Hgs] & Hwd) Hnames].
  rewrite all_inputs_loop_cons, Hgs.
  destruct (input_from_name_total U depth self name None
              (bool_decide (w = 0))) as [[[r self1] seen1] Hres]; try done.
  { simpl. replace (U ∖ ∅) with U by set_solver. done. }
  rewrite Hres; simpl.
  apply input_from_name_state in Hres as [Hext _].
  destruct (IH self1 (inputs ++ [glyph_of_input uni_combining name r (font self1)]))
    as (out & self' & Hloop & Hmap & Hall & Hfont & Hwidths).
  - by rewrite (ext_font _ _ _ _ Hext).
  - eapply Forall_impl; [done|]. intros x (? & ? & ?).
    by rewrite (ext_widths _ _ _ _ Hext).
  - exists (glyph_of_input uni_combining name r (font self1) :: out), self'.
    rewrite Hloop, <- app_assoc. simpl. split_and!; try done.
    + by rewrite glyph_of_input_name, Hmap.
    + constructor.
      * split; [apply glyph_of_input_no_space|].
        rewrite <- (ext_font _ _ _ _ Hext). by destruct r as [[? ?]|].
      * eapply Forall_impl; [done|]. intros g [? ?]. split; [done|].
        by rewrite <- (ext_font _ _ _ _ Hext).
    + by rewrite Hfont, (ext_font _ _ _ _ Hext).
    + by rewrite Hwidths, (ext_widths _ _ _ _ Hext).
Qed.

Lemma size_glyph_names_budget (f : TTFont) :
  (size (glyph_names f) < recursion_budget f)%nat.
Proof. unfold recursion_budget. lia. Qed.

Lemma wf_generator_names self names :
  Forall (λ name, is_Some (getGlyphSet (font self) !! name) ∧
                  is_Some (widths self !! name)) names →
  (∀ name, name ∈ names → name ∈ glyph_names (font self)) →
  Forall (λ name, name ∈ glyph_names (font self) ∧
                  is_Some (getGlyphSet (font self) !! name) ∧
                  is_Some (widths self !! name)) names.
Proof.
  rewrite !Forall_forall. intros H HU name Hin. split; [by apply HU|].
  by apply H.
Qed.

Lemma glyph_order_names (f : TTFont) (name : string) :
  name ∈ getGlyphOrder f → name ∈ glyph_names f.
Proof. intros. unfold glyph_names. apply elem_of_union_l. set_solver. Qed.

(** [all_inputs] returns, with one glyph per name of the glyph order. *)
Lemma all_inputs_total self :
  wf_generator self →
  ∃ out self',
    all_inputs uni_combining self = Ok (out, self') ∧
    map Glyph.name out = getGlyphOrder (font self) ∧
    Forall (λ g, (SPACE ∉ Glyph.characters g) ∧ Glyph.font g = font self) out.
Proof.
  intros Hwf. unfold all_inputs.
  destruct (all_inputs_loop_total (glyph_names (font self))
              (recursion_budget (font self)) self (getGlyphSet (font self))
              (getGlyphOrder (font self)) [])
    as (out & self' & Hloop & Hmap & Hall & _).
  - apply rules_within_glyph_names.
  - apply size_glyph_names_budget.
  - apply wf_generator_names; [done|]. apply glyph_order_names.
  - exists out, self'. by rewrite Hloop.
Qed.

End AllInputsFacts.

(** * The claims *)

Lemma filter_name_none {A} (f : A → string) (l : list A) (g : string) :
  g ∉ map f l → filter (λ x, f x = g) l = [].
Proof.
  induction l as [|x l IH]; simpl; [done|].
  intros Hnin. rewrite filter_cons.
  destruct (decide (f x = g)) as [<-|Hne]; [set_solver|].
  apply IH. set_solver.
Qed.

Lemma filter_name_length {A} (f : A → string) (l : list A) (g : string) :
  NoDup (map f l) → g ∈ map f l →
  length (filter (λ x, f x = g) l) = 1%nat.
Proof.
  induction l as [|x l IH]; simpl; [by intros _ ?%elem_of_nil|].
  intros [Hnin Hnd]%NoDup_cons Hin. rewrite filter_cons.
  destruct (decide (f x = g)) as [<-|Hne]; simpl.
  - by rewrite filter_name_none.
  - apply IH; [done|]. apply elem_of_cons in Hin as [?|?]; [congruence|done].
Qed.

(** C6.  [all_inputs] walks the whole glyph order: it returns a list whose
    names are the glyph order itself, so every glyph of the (duplicate-free)
    glyph order has exactly one entry. *)
Theorem all_inputs_one_glyph_per_name (uni_combining : N → N)
    (self : InputGenerator) :
  wf_generator self → NoDup (getGlyphOrder (font self)) →
  ∃ out self',
    all_inputs uni_combining self = Ok (out, self') ∧
    map Glyph.name out = getGlyphOrder (font self) ∧
    ∀ g, g ∈ getGlyphOrder (font self) →
         length (filter (λ x, Glyph.name x = g) out) = 1%nat.
Proof.
  intros Hwf Hnd.
  destruct (all_inputs_total uni_combining self Hwf)
    as (out & self' & Hrun & Hmap & _).
  exists out, self'. split_and!; [done..|].
  intros g Hg. apply filter_name_length; by rewrite Hmap.
Qed.

Lemma all_inputs_one_glyph_per_name_witness :
  ∃ out self',
    all_inputs sample_combining (HbInputGenerator_init font_marks)
      = Ok (out, self') ∧
    map Glyph.name out = ["space"; "A"; "acutecomb"; "A.sc"; "orphan"]%string ∧
    ∀ g, g ∈ ["space"; "A"; "acutecomb"; "A.sc"; "orphan"]%string →
         length (filter (λ x, Glyph.name x = g) out) = 1%nat.
Proof.
  apply (all_inputs_one_glyph_per_name sample_combining
           (HbInputGenerator_init font_marks)).
  - unfold wf_generator. apply (bool_decide_unpack _); vm_compute; exact I.
  - apply (bool_decide_unpack _); vm_compute; exact I.
Defined.



(** The glyph of U+0020 itself: its resolved text is the space, and the
    glyph [all_inputs] builds for it has no character left. *)
Example space_glyph_has_no_characters :
  ∃ out self' g,
    all_inputs sample_combining (HbInputGenerator_init font_marks)
      = Ok (out, self') ∧
    out !! 0%nat = Some g ∧ Glyph.name g = "space"%string ∧
    memo self' !! "space"%string = Some ([], [SPACE]) ∧
    Glyph.characters g = [].
Proof. eexists _, _, _. split; [vm_compute; reflexivity|]. by vm_compute. Qed.

Lemma all_inputs_loop_Ok_inv (uni_combining : N → N) (U : gset string)
    depth self glyph_set names inputs out1 self1 :
  rules_within U (font self) → (size U < depth)%nat →
  Forall (λ name, name ∈ U ∧ is_Some (glyph_set !! name) ∧
                  is_Some (widths self !! name)) names →
  all_inputs_loop uni_combining depth self glyph_set names inputs
    = Ok (out1, self1) →
  ∃ out, out1 = inputs ++ out ∧ map Glyph.name out = names ∧
         font self1 = font self ∧ widths self1 = widths self.
Proof.
  intros Hw Hsz Hnames Hrun.
  destruct (all_inputs_loop_total uni_combining U depth self glyph_set names
              inputs Hw Hsz Hnames) as (out & self' & Hloop & Hmap & _ & Hf & Hwd).
  rewrite Hloop in Hrun. injection Hrun as <- <-. eauto.
Qed.

(** C3, as the code has it.  When the resolution of a glyph of the glyph
    order returns [None], [all_inputs] goes on to the end of the glyph order
    and its list holds, at the position of that glyph, a [Glyph] with that
    name, the empty text and the feature tuple [('',)]: one tag, the empty
    string. *)
Theorem all_inputs_unresolvable_glyph (uni_combining : N → N)
    (self self1 self2 : InputGenerator) (pre post : list string)
    (name : string) (w : Z) (out1 : list Glyph.t) (seen2 : gset string) :
  wf_generator self →
  getGlyphOrder (font self) = pre ++ name :: post →
  all_inputs_loop uni_combining (recursion_budget (font self)) self
    (getGlyphSet (font self)) pre [] = Ok (out1, self1) →
  getGlyphSet (font self) !! name = Some w →
  input_from_name (recursion_budget (font self)) self1 name None
    (bool_decide (w = 0)) = Ok (None, self2, seen2) →
  ∃ out self' g,
    all_inputs uni_combining self = Ok (out, self') ∧
    map Glyph.name out = getGlyphOrder (font self) ∧
    out !! length pre = Some g ∧
    Glyph.name g = name ∧ Glyph.features g = [[]] ∧ Glyph.characters g = [].
Proof.
  intros Hwf Horder Hpre Hgs Hres.
  pose proof (rules_within_glyph_names (font self)) as Hw.
  pose proof (size_glyph_names_budget (font self)) as Hsz.
  assert (Hnames : Forall (λ n, n ∈ glyph_names (font self) ∧
            is_Some (getGlyphSet (font self) !! n) ∧
            is_Some (widths self !! n)) (pre ++ name :: post)).
  { rewrite <- Horder. apply wf_generator_names; [done|].
    apply glyph_order_names. }
  apply Forall_app in Hnames as [Hnpre Hnpost].
  apply Forall_cons in Hnpost as [_ Hnpost].
  destruct (all_inputs_loop_Ok_inv _ _ _ _ _ _ _ _ _ Hw Hsz Hnpre Hpre)
    as (o1 & -> & Hmap1 & Hf1 & Hwd1).
  pose proof Hres as Hst. apply input_from_name_state in Hst as [Hext _].
  destruct (all_inputs_loop_total uni_combining (glyph_names (font self))
              (recursion_budget (font self)) self2 (getGlyphSet (font self))
              post (o1 ++ [glyph_of_input uni_combining name None (font self2)]))
    as (o3 & self3 & Hloop & Hmap3 & _).
  { by rewrite (ext_font _ _ _ _ Hext), Hf1. }
  { done. }
  { eapply Forall_impl; [done|]. intros x (? & ? & ?).
    by rewrite (ext_widths _ _ _ _ Hext), Hwd1. }
  exists ((o1 ++ [glyph_of_input uni_combining name None (font self2)]) ++ o3),
    self3, (glyph_of_input uni_combining name None (font self2)).
  split_and!; try done.
  - unfold all_inputs. rewrite Horder, all_inputs_loop_app, Hpre. cbn [obind].
    rewrite all_inputs_loop_cons, Hgs, Hres. cbn [obind]. exact Hloop.
  - rewrite Horder, !map_app, Hmap1, Hmap3. simpl. by rewrite <- app_assoc.
  - rewrite <- app_assoc. simpl.
    rewrite <- Hmap1, length_map. by apply list_lookup_middle.
Qed.

Lemma all_inputs_unresolvable_glyph_witness :
  ∃ out self' g,
    all_inputs sample_combining (HbInputGenerator_init font_marks)
      = Ok (out, self') ∧
    map Glyph.name out = ["space"; "A"; "acutecomb"; "A.sc"; "orphan"]%string ∧
    out !! 4%nat = Some g ∧
    Glyph.name g = "orphan"%string ∧ Glyph.features g = [[]] ∧
    Glyph.characters g = [].
Proof.
  eapply (all_inputs_unresolvable_glyph sample_combining
            (HbInputGenerator_init font_marks) _ _
            ["space"; "A"; "acutecomb"; "A.sc"]%string [] "orphan"%string 500).
  - unfold wf_generator. apply (bool_decide_unpack _); vm_compute; exact I.
  - reflexivity.
  - vm_compute. reflexivity.
  - reflexivity.
  - vm_compute. reflexivity.
Defined.

(** C3 as stated fails: the glyph of an unresolvable name does not carry the
    empty feature tuple. *)
Lemma unresolvable_glyph_features_not_empty :
  ∃ out self' g s sn,
    input_from_name (recursion_budget font_marks)
      (HbInputGenerator_init font_marks) "orphan"%string None false
      = Ok (None, s, sn) ∧
    all_inputs sample_combining (HbInputGenerator_init font_marks)
      = Ok (out, self') ∧
    out !! 4%nat = Some g ∧ Glyph.name g = "orphan"%string ∧
    Glyph.characters g = [] ∧ Glyph.features g ≠ [].
Proof.
  eexists _, _, _, _, _.
  split; [vm_compute; reflexivity|].
  split; [vm_compute; reflexivity|].
  by vm_compute.
Qed.

(** ** Padding *)

Lemma padding_count (w s : Z) :
  0 < s → w / s + (if decide (w mod s = 0) then 0 else 1) = ceil_div w s.
Proof.
  intros Hs. unfold ceil_div. destruct (decide (w mod s = 0)) as [Hz|Hnz].
  - rewrite Z.div_opp_l_z by lia. lia.
  - rewrite Z.div_opp_l_nz by lia. lia.
Qed.

Lemma ceil_div_spec (w s : Z) :
  0 < s → (ceil_div w s - 1) * s < w ≤ ceil_div w s * s.
Proof.
  intros Hs. rewrite <- padding_count by done.
  pose proof (Z.div_mod w s ltac:(lia)) as Hdm.
  pose proof (Z.mod_pos_bound w s Hs) as Hb.
  destruct (decide (w mod s = 0)); nia.
Qed.

Lemma padding_ceil (w s : Z) :
  0 < s → padding w s = replicate (Z.to_nat (ceil_div w s)) SPACE.
Proof. intros Hs. unfold padding. by rewrite padding_count. Qed.

Lemma remove_spaces_replicate (n : nat) (text : pystr) :
  remove_spaces (replicate n SPACE ++ text) = remove_spaces text.
Proof.
  unfold remove_spaces.
  induction n as [|n IH]; [done|].
  change (replicate (S n) SPACE ++ text)
    with (SPACE :: (replicate n SPACE ++ text)).
  rewrite filter_cons_False; [exact IH | by intros []].
Qed.

Lemma input_from_name_step depth self name seen pad subs self1 seen1 :
  memo self !! name = None → name ∉ default ∅ seen →
  _inputs_from_gsub depth self name ({[name]} ∪ default ∅ seen)
    = Ok (subs, self1, seen1) →
  input_from_name (S depth) self name seen pad =
  choose_input self1 name seen1 pad (cmap_inputs self name ++ subs).
Proof.
  intros Hmemo Hseen Hsubs. simpl. rewrite Hmemo.
  destruct (decide (name ∈ default ∅ seen)); [done|].
  unfold _inputs_from_gsub in Hsubs. by rewrite Hsubs.
Qed.

Lemma _inputs_from_gsub_extends depth self name seen subs self1 seen1 :
  _inputs_from_gsub depth self name seen = Ok (subs, self1, seen1) →
  extends self seen self1 seen1.
Proof.
  apply inputs_from_rules_extends.
  intros s g sn r s' sn'. apply input_from_name_extends.
Qed.

(** C2, as the code has it.  When [input_from_name] is asked to pad (as
    [all_inputs] asks for a glyph of zero advance width), finds a smallest
    candidate [(features, text)] and the space width [s] is positive, the
    text it returns and stores is [text] after exactly [ceil(w / s)] spaces,
    [w] being the width of the glyph.  [all_inputs] then deletes every space:
    the characters of its glyph are those of [text] without spaces, and no
    padding is left. *)
Theorem input_from_name_padding (uni_combining : N → N) (depth : nat)
    (self self1 : InputGenerator) (name : string)
    (seen : option (gset string)) (seen1 : gset string)
    (subs : list (option hb_input)) (features : list pystr) (text : pystr)
    (w : Z) :
  memo self !! name = None → name ∉ default ∅ seen →
  _inputs_from_gsub depth self name ({[name]} ∪ default ∅ seen)
    = Ok (subs, self1, seen1) →
  py_min (omap id (cmap_inputs self name ++ subs)) = Some (features, text) →
  widths self !! name = Some w → 0 < space_width self →
  let s := space_width self in
  let padded := replicate (Z.to_nat (ceil_div w s)) SPACE ++ text in
  (ceil_div w s - 1) * s < w ≤ ceil_div w s * s ∧
  input_from_name (S depth) self name seen true
    = Ok (Some (features, padded),
          set_memo self1 (<[name := (features, padded)]> (memo self1)),
          seen1) ∧
  Glyph.characters
    (glyph_of_input uni_combining name (Some (features, padded)) (font self1))
    = remove_spaces text.
Proof.
  intros Hmemo Hseen Hsubs Hmin Hw Hs s padded.
  split; [by apply ceil_div_spec|]. split.
  - rewrite (input_from_name_step _ _ _ _ _ _ _ _ Hmemo Hseen Hsubs).
    apply _inputs_from_gsub_extends in Hsubs as Hext.
    unfold choose_input. rewrite Hmin.
    rewrite (ext_space_width _ _ _ _ Hext), (ext_widths _ _ _ _ Hext), Hw.
    rewrite bool_decide_true by done. simpl.
    by rewrite padding_ceil.
  - simpl. apply remove_spaces_replicate.
Qed.

Lemma input_from_name_padding_witness :
  (ceil_div 300 250 - 1) * 250 < 300 ≤ ceil_div 300 250 * 250 ∧
  input_from_name 1 (HbInputGenerator_init font_marks) "acutecomb"%string
    None true
    = Ok (Some ([], replicate (Z.to_nat (ceil_div 300 250)) SPACE ++ [769%N]),
          set_memo (HbInputGenerator_init font_marks)
            (<["acutecomb"%string :=
                 ([], replicate (Z.to_nat (ceil_div 300 250)) SPACE ++ [769%N])]>
               (memo (HbInputGenerator_init font_marks))),
          {["acutecomb"%string]} ∪ ∅) ∧
  Glyph.characters
    (glyph_of_input sample_combining "acutecomb"%string
       (Some ([], replicate (Z.to_nat (ceil_div 300 250)) SPACE ++ [769%N]))
       (font (HbInputGenerator_init font_marks)))
    = remove_spaces [769%N].
Proof.
  apply (input_from_name_padding sample_combining 0
           (HbInputGenerator_init font_marks) (HbInputGenerator_init font_marks)
           "acutecomb"%string None ({["acutecomb"%string]} ∪ ∅) [] [] [769%N] 300).
  - reflexivity.
  - simpl. apply (bool_decide_unpack _); vm_compute; exact I.
  - reflexivity.
  - reflexivity.
  - reflexivity.
  - simpl. lia.
Defined.

(** C2 as stated fails: the glyph [all_inputs] returns for a zero-width
    glyph does not start with the [ceil(300 / 250) = 2] spaces. *)
Lemma all_inputs_drops_padding :
  ∃ out self' g,
    all_inputs sample_combining (HbInputGenerator_init font_marks)
      = Ok (out, self') ∧
    out !! 2%nat = Some g ∧ Glyph.name g = "acutecomb"%string ∧
    getGlyphSet font_marks !! "acutecomb"%string = Some 0 ∧
    widths (HbInputGenerator_init font_marks) !! "acutecomb"%string = Some 300 ∧
    space_width (HbInputGenerator_init font_marks) = 250 ∧
    ceil_div 300 250 = 2 ∧
    Glyph.characters g = [769%N] ∧
    Glyph.characters g ≠ [SPACE; SPACE; 769%N].
Proof.
  eexists _, _, _. split; [vm_compute; reflexivity|]. by vm_compute.
Qed.

(** ** The memo *)

(** C4, as the code has it.  A name that has a memo entry gets that entry
    back at once, with the generator and [seen] untouched; and whatever a
    call returns for [name] is what the memo holds for [name] afterwards: a
    chosen pair is stored, the unresolvable outcome [None] is not, so that a
    later call for the same name searches again. *)
Theorem input_from_name_memo (depth : nat) (self : InputGenerator)
    (name : string) (seen : option (gset string)) (pad : bool) :
  (∀ r, memo self !! name = Some r →
        input_from_name (S depth) self name seen pad
          = Ok (Some r, self, default ∅ seen)) ∧
  (∀ r self' seen',
     input_from_name depth self name seen pad = Ok (r, self', seen') →
     memo self' !! name = r).
Proof.
  split.
  - intros r Hr. simpl. by rewrite Hr.
  - intros r self' seen' H. by apply input_from_name_state in H as (_ & ? & _).
Qed.

Lemma input_from_name_memo_witness :
  memo (HbInputGenerator_init font_marks) !! "orphan"%string = None.
Proof.
  apply (proj2 (input_from_name_memo 1 (HbInputGenerator_init font_marks)
                  "orphan"%string None false)
           None (HbInputGenerator_init font_marks)
           ({["orphan"%string]} ∪ ∅)).
  reflexivity.
Defined.

(** C4 as stated fails: the unresolvable outcome leaves no memo entry, and
    the same name resolved again in the same session does not get the earlier
    outcome back. *)
Lemma unresolvable_outcome_not_cached :
  ∃ s1 sn1 r2 s2 sn2 r3 s3 sn3,
    input_from_name (recursion_budget font_liga)
      (HbInputGenerator_init font_liga) "X"%string None false
      = Ok (None, s1, sn1) ∧
    memo s1 !! "X"%string = None ∧
    input_from_name (recursion_budget font_liga) s1 "G"%string None false
      = Ok (r2, s2, sn2) ∧
    input_from_name (recursion_budget font_liga) s2 "X"%string None false
      = Ok (Some r3, s3, sn3).
Proof.
  eexists _, _, _, _, _, _, _, _.
  split; [vm_compute; reflexivity|].
  split; [vm_compute; reflexivity|].
  split; vm_compute; reflexivity.
Qed.

(** ** The [seen] set *)

(** C5, as the code has it.  With [seen.remove(name)] commented out, a call
    never takes a name out of [seen]: the set it returns contains the set it
    was given, and unless the memo answered, it contains the name of the call
    as well.  [seen] is the set of names visited since the top-level call
    began, not the active path. *)
Theorem seen_only_grows (depth : nat) (self self' : InputGenerator)
    (name : string) (seen seen' : gset string) (pad : bool)
    (r : option hb_input) :
  input_from_name depth self name (Some seen) pad = Ok (r, self', seen') →
  seen ⊆ seen' ∧ (memo self !! name = None → name ∈ seen').
Proof.
  intros H. apply input_from_name_state in H as (Hext & _ & Hin).
  split; [apply (ext_seen _ _ _ _ Hext) | done].
Qed.

Lemma seen_only_grows_witness :
  ({["X"%string]} : gset string) ⊆ {["A"%string]} ∪ ({["A.sc"%string]} ∪ {["X"%string]}) ∧
  (memo (HbInputGenerator_init font_marks) !! "A.sc"%string = None →
   "A.sc"%string ∈ ({["A"%string]} ∪ ({["A.sc"%string]} ∪ {["X"%string]}) : gset string)).
Proof.
  eapply (seen_only_grows 2 (HbInputGenerator_init font_marks) _
            "A.sc"%string {["X"%string]} _ false).
  vm_compute. reflexivity.
Defined.

(** C5 as stated fails: the recursive call for "A" made while "A.sc" is
    resolved has returned, and "A" is still in [seen]; when the top-level
    call has returned, the set holds both names. *)
Lemma seen_keeps_finished_names :
  (∃ subs s,
     _inputs_from_gsub 1 (HbInputGenerator_init font_marks) "A.sc"%string
       {["A.sc"%string]}
     = Ok (subs, s, {["A"%string]} ∪ {["A.sc"%string]}) ∧
     ({["A"%string]} ∪ {["A.sc"%string]} : gset string) ≠ {["A.sc"%string]}) ∧
  (∃ r s,
     input_from_name (recursion_budget font_marks)
       (HbInputGenerator_init font_marks) "A.sc"%string None false
     = Ok (r, s, {["A"%string]} ∪ {["A.sc"%string]}) ∧
     ({["A"%string]} ∪ {["A.sc"%string]} : gset string) ≠ ∅).
Proof.
  split.
  - eexists _, _. split; [vm_compute; reflexivity|].
    intros Heq. assert ("A"%string ∈ ({["A.sc"%string]} : gset string)) as Hin
      by (rewrite <- Heq; set_solver).
    apply elem_of_singleton in Hin. discriminate.
  - eexists _, _. split; [vm_compute; reflexivity | set_solver].
Qed.

(** ** Termination *)

Lemma size_list_to_set_le (l : list string) :
  (size (list_to_set l : gset string) ≤ length l)%nat.
Proof.
  induction l as [|x l IH].
  - rewrite list_to_set_nil, size_empty. simpl. lia.
  - rewrite list_to_set_cons, size_union_alt, size_singleton.
    pose proof (subseteq_size (list_to_set l ∖ {[x]}) (list_to_set l : gset string)
                  ltac:(set_solver)). simpl. lia.
Qed.

Lemma recursion_budget_glyph_count (f : TTFont) :
  rules_within (list_to_set (getGlyphOrder f)) f →
  (recursion_budget f ≤ S (length (getGlyphOrder f)))%nat.
Proof.
  intros Hw. unfold recursion_budget.
  assert (glyph_names f ⊆ list_to_set (getGlyphOrder f)) as Hsub.
  { unfold glyph_names. intros g [Hg|Hg]%elem_of_union; [done|].
    apply elem_of_list_to_set, list_elem_of_In, in_concat in Hg
      as (gs & Hgs & Hg).
    apply in_map_iff in Hgs as (r & <- & Hr).
    apply (Hw r); by apply list_elem_of_In. }
  apply subseteq_size in Hsub.
  pose proof (size_list_to_set_le (getGlyphOrder f)). lia.
Qed.

(** C7.  Resolution of a glyph name of the font returns under the budget
    of [recursion_budget] nested calls, whatever the rules are (cycles
    included); a call for a name already in [seen], and without a memo entry
    to answer first, returns [None] at once, leaving the generator and
    [seen] as they are; and when the rules mention glyphs of the glyph order
    only, the budget is at most the glyph count plus one. *)
Theorem resolution_terminates (self : InputGenerator) (name : string)
    (pad : bool) :
  name ∈ glyph_names (font self) →
  (pad = true → is_Some (widths self !! name)) →
  (∃ r self' seen',
     input_from_name (recursion_budget (font self)) self name None pad
       = Ok (r, self', seen')) ∧
  (∀ depth seen, name ∈ seen → memo self !! name = None →
     input_from_name (S depth) self name (Some seen) pad
       = Ok (None, self, seen)) ∧
  (rules_within (list_to_set (getGlyphOrder (font self))) (font self) →
   (recursion_budget (font self) ≤ S (length (getGlyphOrder (font self))))%nat).
Proof.
  intros HU Hpad. split_and!.
  - destruct (input_from_name_total (glyph_names (font self))
                (recursion_budget (font self)) self name None pad)
      as [[[r self'] seen'] H]; try done.
    + apply rules_within_glyph_names.
    + simpl. replace (glyph_names (font self) ∖ ∅)
        with (glyph_names (font self)) by set_solver.
      apply size_glyph_names_budget.
    + eauto.
  - intros depth seen Hin Hmemo. simpl. rewrite Hmemo.
    by destruct (decide (name ∈ seen)).
  - apply recursion_budget_glyph_count.
Qed.

Lemma resolution_terminates_witness :
  (∃ r self' seen',
     input_from_name (recursion_budget font_cycle)
       (HbInputGenerator_init font_cycle) "A"%string None true
       = Ok (r, self', seen')) ∧
  (∀ depth seen, "A"%string ∈ seen →
     memo (HbInputGenerator_init font_cycle) !! "A"%string = None →
     input_from_name (S depth) (HbInputGenerator_init font_cycle) "A"%string
       (Some seen) true
       = Ok (None, HbInputGenerator_init font_cycle, seen)) ∧
  (rules_within (list_to_set (getGlyphOrder font_cycle)) font_cycle →
   (recursion_budget font_cycle ≤ S (length (getGlyphOrder font_cycle)))%nat).
Proof.
  apply (resolution_terminates (HbInputGenerator_init font_cycle)
           "A"%string true).
  - apply (bool_decide_unpack _); vm_compute; exact I.
  - intros _. apply (bool_decide_unpack _); vm_compute; exact I.
Defined.

(** The cycle of the specification: "A" only from "B", "B" only from "A".
    Both resolve (to the unresolvable outcome), within three nested calls. *)
Example cycle_resolves :
  recursion_budget font_cycle = 3%nat ∧
  ∃ out self',
    all_inputs sample_combining (HbInputGenerator_init font_cycle)
      = Ok (out, self') ∧
    map (λ g, (Glyph.name g, Glyph.features g, Glyph.characters g)) out
      = [("A"%string, [[]], []); ("B"%string, [[]], [])].
Proof.
  split; [by vm_compute|].
  eexists _, _. split; [vm_compute; reflexivity | by vm_compute].
Qed.

(** ** Selection *)

(** C8, as the code has it.  When the search for [name] gathers at least one
    candidate, [input_from_name] takes the least [(features, text)] of them
    in Python's tuple order (tags compared one by one, a proper prefix and so
    the empty tuple first): it is one of the candidates, below every
    candidate, and the same for every reordering of the candidate list.  It
    stores and returns that pair with the padding put before the text when
    padding is asked for and the space width is positive. *)
Theorem input_from_name_selects_min (depth : nat)
    (self self1 : InputGenerator) (name : string)
    (seen : option (gset string)) (seen1 : gset string) (pad : bool)
    (subs : list (option hb_input)) (w : Z) :
  memo self !! name = None → name ∉ default ∅ seen →
  _inputs_from_gsub depth self name ({[name]} ∪ default ∅ seen)
    = Ok (subs, self1, seen1) →
  omap id (cmap_inputs self name ++ subs) ≠ [] →
  widths self !! name = Some w →
  let candidates := omap id (cmap_inputs self name ++ subs) in
  ∃ features text,
    In (features, text) candidates ∧
    (∀ c, In c candidates → input_le (features, text) c) ∧
    (∀ t, In ([], t) candidates → features = []) ∧
    (∀ candidates', Permutation candidates candidates' →
                    py_min candidates' = Some (features, text)) ∧
    let text' :=
      (if pad && bool_decide (0 < space_width self)
       then padding w (space_width self) else []) ++ text in
    input_from_name (S depth) self name seen pad
      = Ok (Some (features, text'),
            set_memo self1 (<[name := (features, text')]> (memo self1)),
            seen1).
Proof.
  intros Hmemo Hseen Hsubs Hne Hw candidates.
  destruct (py_min_is_Some candidates Hne) as [[features text] Hmin].
  exists features, text. split_and!.
  - by apply py_min_in.
  - intros c Hc. by eapply py_min_le.
  - intros t Ht. pose proof (py_min_le _ _ _ Hmin Ht) as Hle.
    unfold input_le, input_compare in Hle. simpl in Hle.
    destruct features; [done|]. by simpl in Hle.
  - intros candidates' Hp. by eapply py_min_perm.
  - rewrite (input_from_name_step _ _ _ _ _ _ _ _ Hmemo Hseen Hsubs).
    apply _inputs_from_gsub_extends in Hsubs as Hext.
    unfold choose_input. fold candidates. rewrite Hmin.
    rewrite (ext_space_width _ _ _ _ Hext), (ext_widths _ _ _ _ Hext), Hw.
    by destruct (pad && bool_decide (0 < space_width self)).
Qed.

(** The alternate mark of [font_alt], padded: three candidates, the least of
    them gathered last, two spaces put before its text. *)
Lemma input_from_name_selects_min_witness :
  let candidates : list hb_input :=
    [([pystr_of "salt"], [769%N]); ([pystr_of "aalt"], [769%N]);
     ([pystr_of "aalt"], [768%N])] in
  ∃ features text,
    (features, text) = ([pystr_of "aalt"], [768%N]) ∧
    In (features, text) candidates ∧
    (∀ c, In c candidates → input_le (features, text) c) ∧
    (∀ candidates', Permutation candidates candidates' →
                    py_min candidates' = Some (features, text)) ∧
    py_min (rev candidates) = Some (features, text) ∧
    input_from_name 3 sample_gen_alt "mark.alt"%string None true
      = Ok (Some (features, [SPACE; SPACE] ++ text),
            set_memo sample_gen_alt_accents
              (<["mark.alt"%string := (features, [SPACE; SPACE] ++ text)]>
                 (memo sample_gen_alt_accents)),
            {["acutecomb"%string]} ∪ {["gravecomb"%string]}
              ∪ {["mark.alt"%string]}).
Proof.
  destruct (input_from_name_selects_min 2 sample_gen_alt
              sample_gen_alt_accents "mark.alt"%string None
              ({["acutecomb"%string]} ∪ {["gravecomb"%string]}
                 ∪ {["mark.alt"%string]})
              true
              [Some ([pystr_of "salt"], [769%N]);
               Some ([pystr_of "aalt"], [769%N]);
               Some ([pystr_of "aalt"], [768%N])] 300)
    as (features & text & Hin & Hle & _ & Hperm & Hcall).
  - reflexivity.
  - simpl. apply (bool_decide_unpack _); vm_compute; exact I.
  - vm_compute. reflexivity.
  - discriminate.
  - reflexivity.
  - exists features, text.
    pose proof (Hperm _ (Permutation_refl _)) as Hmin.
    split; [by injection Hmin as <- <-|].
    split; [exact Hin|]. split; [exact Hle|]. split; [exact Hperm|].
    split; [exact (Hperm _ (Permutation_rev _))|].
    exact Hcall.
Defined.

(** C8 as stated fails twice.  With padding, the pair returned is not one of
    the candidates.  And two fonts whose rule lists are permutations of each
    other, equal in everything else, get different inputs for the glyph "Q":
    the memo and [seen] are shared by the whole search, so the candidates
    gathered for a glyph depend on the order the rules are visited in. *)
Lemma selection_depends_on_padding_and_rule_order :
  (∃ s sn,
     input_from_name 1 (HbInputGenerator_init font_marks) "acutecomb"%string
       None true = Ok (Some ([], [SPACE; SPACE; 769%N]), s, sn) ∧
     omap id (cmap_inputs (HbInputGenerator_init font_marks)
                "acutecomb"%string ++ [])
       = [([], [769%N])] ∧
     ¬ In ([], [SPACE; SPACE; 769%N]) [(([] : list pystr), [769%N])]) ∧
  (Permutation (font_gsub font_order1) (font_gsub font_order2) ∧
   font_order2 =
     {| has_cmap := has_cmap font_order1;
        getGlyphOrder := getGlyphOrder font_order1;
        getGlyphSet := getGlyphSet font_order1;
        font_reverse_cmap := font_reverse_cmap font_order1;
        font_widths := font_widths font_order1;
        font_space_width := font_space_width font_order1;
        font_gsub := font_gsub font_order2;
        font_fvar := font_fvar font_order1;
        font_usWeightClass := font_usWeightClass font_order1 |} ∧
   ∃ out1 s1 out2 s2 g1 g2,
     all_inputs sample_combining (HbInputGenerator_init font_order1)
       = Ok (out1, s1) ∧
     all_inputs sample_combining (HbInputGenerator_init font_order2)
       = Ok (out2, s2) ∧
     out1 !! 2%nat = Some g1 ∧ out2 !! 2%nat = Some g2 ∧
     Glyph.name g1 = "Q"%string ∧ Glyph.name g2 = "Q"%string ∧
     (Glyph.features g1, Glyph.characters g1)
       = ([pystr_of "zzzz"], [114%N]) ∧
     (Glyph.features g2, Glyph.characters g2)
       = ([pystr_of "aaaa"], [112%N])).
Proof.
  split.
  - eexists _, _. split; [vm_compute; reflexivity|]. split; [reflexivity|].
    intros [[=]|[]].
  - split; [apply perm_swap|]. split; [reflexivity|].
    eexists _, _, _, _, _, _.
    split; [vm_compute; reflexivity|]. split; [vm_compute; reflexivity|].
    by vm_compute.
Qed.

(** ** Variation axes *)

Lemma default_locations_from (l : list Axis) (m : gmap string Z) :
  let m' := foldl (λ m a, <[axisTag a := defaultValue a]> m) m l in
  dom m' = dom m ∪ list_to_set (map axisTag l) ∧
  (∀ t, t ∉ map axisTag l → m' !! t = m !! t) ∧
  (NoDup (map axisTag l) →
   ∀ a, a ∈ l → m' !! axisTag a = Some (defaultValue a)).
Proof.
  revert m. induction l as [|x l IH]; intros m; simpl.
  - split_and!; [set_solver | done | by intros _ a ?%elem_of_nil].
  - destruct (IH (<[axisTag x := defaultValue x]> m)) as (Hdom & Hother & Hin).
    split_and!.
    + rewrite Hdom, dom_insert_L. set_solver.
    + intros t Ht. rewrite Hother by set_solver.
      apply lookup_insert_ne. set_solver.
    + intros [Hx Hnd]%NoDup_cons a [->|Ha]%elem_of_cons.
      * rewrite Hother by done. apply lookup_insert_eq.
      * by apply Hin.
Qed.

Lemma default_locations_dom (l : list Axis) :
  dom (default_locations l) = list_to_set (map axisTag l).
Proof.
  destruct (default_locations_from l ∅) as (Hdom & _).
  unfold default_locations. rewrite Hdom. set_solver.
Qed.

Lemma default_locations_lookup (l : list Axis) (a : Axis) :
  NoDup (map axisTag l) → a ∈ l →
  default_locations l !! axisTag a = Some (defaultValue a).
Proof.
  intros Hnd Ha. destruct (default_locations_from l ∅) as (_ & _ & H).
  by apply H.
Qed.

Lemma apply_axes_spec (axes : list (string * Z)) (locations : gmap string Z)
    (out : list string) :
  NoDup (map fst axes) →
  dom (apply_axes axes locations out).1 = dom locations ∧
  (∀ t v, (t, v) ∈ axes → t ∈ dom locations →
          (apply_axes axes locations out).1 !! t = Some v) ∧
  (∀ t, t ∉ map fst axes →
        (apply_axes axes locations out).1 !! t = locations !! t) ∧
  (apply_axes axes locations out).2 =
    out ++ map no_axis_message
             (filter (λ t, t ∉ dom locations) (map fst axes)).
Proof.
  revert locations out. induction axes as [|[axis value] axes IH];
    intros locations out Hnd; simpl.
  { split_and!; [done | by intros t v ?%elem_of_nil | done |].
    by rewrite app_nil_r. }
  apply NoDup_cons in Hnd as [Hx Hnd].
  destruct (decide (is_Some (locations !! axis))) as [Hin|Hnin].
  - assert (dom (<[axis := value]> locations) = dom locations) as Hdom.
    { rewrite dom_insert_L. apply elem_of_dom in Hin. set_solver. }
    destruct (IH (<[axis := value]> locations) out Hnd)
      as (Hd & Hreq & Hother & Hout).
    split_and!.
    + by rewrite Hd.
    + intros t v [[= -> ->]|Htv]%elem_of_cons Ht.
      * rewrite Hother by done. apply lookup_insert_eq.
      * apply Hreq; [done | by rewrite Hdom].
    + intros t Ht. rewrite Hother by set_solver.
      apply lookup_insert_ne. set_solver.
    + rewrite Hout, Hdom. rewrite filter_cons_False; [done|].
      intros Hn. apply Hn. by apply elem_of_dom.
  - destruct (IH locations (out ++ [no_axis_message axis]) Hnd)
      as (Hd & Hreq & Hother & Hout).
    split_and!.
    + done.
    + intros t v [[= -> ->]|Htv]%elem_of_cons Ht.
      * by apply elem_of_dom in Ht.
      * by apply Hreq.
    + intros t Ht. apply Hother. set_solver.
    + rewrite Hout, filter_cons_True; [|by rewrite elem_of_dom].
      by rewrite <- app_assoc.
Qed.

Section DFontFacts.
Variable Table : Type.
Variable instantiateVariableFont : TTFont → list (string * Z) → TTFont.
Variable DumpAnchors_marks_table : DFont Table → Table.
Variable DumpAnchors_mkmks_table : DFont Table → Table.
Variable dump_glyphs : DFont Table → Table.
Variable dump_glyph_metrics : DFont Table → Table.
Variable dump_attribs : DFont Table → Table.
Variable dump_nametable : DFont Table → Table.
Variable dump_kerning : DFont Table → Table.

#[local] Abbreviation recalc :=
  (recalc_tables DumpAnchors_marks_table DumpAnchors_mkmks_table dump_glyphs
     dump_glyph_metrics dump_attribs dump_nametable dump_kerning).

#[local] Abbreviation set_vars :=
  (set_variations instantiateVariableFont DumpAnchors_marks_table
     DumpAnchors_mkmks_table dump_glyphs dump_glyph_metrics dump_attribs
     dump_nametable dump_kerning).

(** [recalc_tables] assigns the seven dumped tables (and [_metrics]) and
    nothing else: the font, the glyph set and the axis fields stay. *)
Lemma recalc_tables_keeps (self : DFont Table) :
  _ttfont (recalc self) = _ttfont self ∧
  _src (recalc self) = _src self ∧
  _glyphset (recalc self) = _glyphset self ∧
  _axis_locations (recalc self) = _axis_locations self ∧
  _axis_order (recalc self) = _axis_order self ∧
  _input_map (recalc self) = _input_map self.
Proof. by split_and!. Qed.

Lemma set_variations_unfold (self : DFont Table) (axes : list (string * Z))
    (out : list string) (fvar_axes : list Axis) :
  font_fvar (_src self) = Some fvar_axes →
  let r := apply_axes axes (default_locations fvar_axes) out in
  _ttfont (set_vars self axes out).1 = instantiateVariableFont (_src self) axes ∧
  _glyphset (set_vars self axes out).1 = _glyphset self ∧
  _axis_order (set_vars self axes out).1 = Some (map axisTag fvar_axes) ∧
  _axis_locations (set_vars self axes out).1 = Some r.1 ∧
  (set_vars self axes out).2 = r.2.
Proof.
  intros Hfvar r. unfold set_variations. rewrite Hfvar.
  fold r. by destruct r.
Qed.

(** C9.  On a variable font, [set_variations] goes through: the new font is
    the instance at the requested axes, [axis_order] lists the declared
    axes, and [axis_locations] has exactly the declared axes as its keys: a
    requested declared tag at its requested value, a declared tag that was
    not requested at its default value.  One line is printed for each
    requested tag that is not declared, in the order of the request, and
    such a tag gets no entry. *)
Theorem set_variations_axes (self : DFont Table) (axes : list (string * Z))
    (out : list string) (fvar_axes : list Axis) :
  font_fvar (_src self) = Some fvar_axes →
  NoDup (map axisTag fvar_axes) → NoDup (map fst axes) →
  ∃ locations,
    _ttfont (set_vars self axes out).1
      = instantiateVariableFont (_src self) axes ∧
    axis_order (set_vars self axes out).1 = Some (map axisTag fvar_axes) ∧
    axis_locations (set_vars self axes out).1 = Some locations ∧
    dom locations = list_to_set (map axisTag fvar_axes) ∧
    (∀ t v, (t, v) ∈ axes → t ∈ map axisTag fvar_axes →
            locations !! t = Some v) ∧
    (∀ a, a ∈ fvar_axes → axisTag a ∉ map fst axes →
          locations !! axisTag a = Some (defaultValue a)) ∧
    (set_vars self axes out).2 =
      out ++ map no_axis_message
               (filter (λ t, t ∉ map axisTag fvar_axes) (map fst axes)).
Proof.
  intros Hfvar Hdecl Hreq.
  destruct (set_variations_unfold self axes out fvar_axes Hfvar)
    as (Hfont & _ & Horder & Hloc & Hout).
  destruct (apply_axes_spec axes (default_locations fvar_axes) out Hreq)
    as (Hdom & Hset & Hother & Hprinted).
  rewrite default_locations_dom in *.
  eexists. split_and!; [done | done | exact Hloc | done | | | ].
  - intros t v Htv Ht. apply Hset; [done | set_solver].
  - intros a Ha Hna. rewrite Hother by done.
    by apply default_locations_lookup.
  - rewrite Hout, Hprinted. do 2 f_equal.
    apply list_filter_iff. intros t. set_solver.
Qed.

(** The glyph set survives a change of variations as it was. *)
Lemma set_variations_glyphset (self : DFont Table) (axes : list (string * Z))
    (out : list string) :
  glyphset (set_vars self axes out).1 = glyphset self.
Proof.
  unfold set_variations, glyphset.
  destruct (font_fvar (_src self)); [|done].
  by destruct (apply_axes _ _ _).
Qed.

End DFontFacts.

Lemma set_variations_axes_witness :
  ∃ locations,
    _ttfont (sample_set_variations sample_dfont
               [("wght"%string, 700); ("zzzz"%string, 1)] []).1
      = sample_instantiate font_vf [("wght"%string, 700); ("zzzz"%string, 1)] ∧
    axis_order (sample_set_variations sample_dfont
                  [("wght"%string, 700); ("zzzz"%string, 1)] []).1
      = Some ["wght"%string] ∧
    axis_locations (sample_set_variations sample_dfont
                      [("wght"%string, 700); ("zzzz"%string, 1)] []).1
      = Some locations ∧
    dom locations = list_to_set ["wght"%string] ∧
    (∀ t v, (t, v) ∈ [("wght"%string, 700); ("zzzz"%string, 1)] →
            t ∈ ["wght"%string] → locations !! t = Some v) ∧
    (∀ a, a ∈ [{| axisTag := "wght"; defaultValue := 400 |}] →
          axisTag a ∉ ["wght"; "zzzz"]%string →
          locations !! axisTag a = Some (defaultValue a)) ∧
    (sample_set_variations sample_dfont
       [("wght"%string, 700); ("zzzz"%string, 1)] []).2
      = [] ++ map no_axis_message
                (filter (λ t, t ∉ ["wght"%string]) ["wght"; "zzzz"]%string).
Proof.
  refine (set_variations_axes unit sample_instantiate sample_dump sample_dump
            sample_dump sample_dump sample_dump sample_dump sample_dump
            sample_dfont [("wght"%string, 700); ("zzzz"%string, 1)] []
            [{| axisTag := "wght"; defaultValue := 400 |}] _ _ _).
  - reflexivity.
  - apply (bool_decide_unpack _); vm_compute; exact I.
  - apply (bool_decide_unpack _); vm_compute; exact I.
Defined.

(** The scenario of the specification: "wght" declared, "wght" and "zzzz"
    requested. *)
Example set_variations_wght_zzzz :
  let r := sample_set_variations sample_dfont
             [("wght"%string, 700); ("zzzz"%string, 1)] [] in
  axis_locations r.1 = Some {["wght"%string := 700]} ∧
  r.2 = ["font has no axis called zzzz"%string].
Proof. split; by vm_compute. Qed.

(** ** The glyph set after a change of variations *)

(** C1 fails on the code.  A [DFont] is built for a variable font, which
    computes its glyph set from the font as loaded, and [set_variations]
    then pins "wght" at 700.  The font resource is replaced, but the glyph
    set is the one computed before: its glyphs still refer to the font as
    loaded, and it differs from the glyph set [_gen_inputs] computes from the
    current font.  [recalc_input_map], the one place that recomputes it, is
    not called and writes to [_input_map], which nothing reads. *)
Theorem set_variations_leaves_glyphset_stale :
  ∃ d d' out m m',
    sample_DFont_init (Some "VF.ttf"%string) font_vf false = Ok d ∧
    sample_set_variations d [("wght"%string, 700)] [] = (d', out) ∧
    _ttfont d' = sample_instantiate font_vf [("wght"%string, 700)] ∧
    _ttfont d' ≠ _ttfont d ∧
    glyphset d' = glyphset d ∧
    glyphset d' = GlyphsetDict m ∧
    _gen_inputs sample_combining d' = Ok (GlyphsetDict m') ∧
    Glyph.font <$> m !! "A"%string = Some font_vf ∧
    Glyph.font <$> m' !! "A"%string = Some (_ttfont d') ∧
    m ≠ m' ∧
    _input_map d' = None.
Proof.
  eexists _, _, _, _, _.
  split; [vm_compute; reflexivity|].
  split; [vm_compute; reflexivity|].
  split; [vm_compute; reflexivity|].
  split; [by vm_compute|].
  split; [vm_compute; reflexivity|].
  split; [vm_compute; reflexivity|].
  split; [vm_compute; reflexivity|].
  split; [vm_compute; reflexivity|].
  split; [vm_compute; reflexivity|].
  split; [|vm_compute; reflexivity].
  intros Heq.
  apply (f_equal (λ m, font_fvar <$> (Glyph.font <$> m !! "A"%string))) in Heq.
  vm_compute in Heq. discriminate.
Qed.

(** * Further properties of the code *)

(** ** One call of [input_from_name] *)

(** X1.  A call of [input_from_name] that returns never changes or removes a
    memo entry that was there, and leaves the font, the reverse character
    map, the widths and the space width of the generator as they were. *)
Theorem input_from_name_keeps_memo (depth : nat) (self self' : InputGenerator)
    (name : string) (seen : option (gset string)) (seen' : gset string)
    (pad : bool) (r : option hb_input) :
  input_from_name depth self name seen pad = Ok (r, self', seen') →
  (∀ k v, memo self !! k = Some v → memo self' !! k = Some v) ∧
  font self' = font self ∧ reverse_cmap self' = reverse_cmap self ∧
  widths self' = widths self ∧ space_width self' = space_width self.
Proof.
  intros H. apply input_from_name_state in H as ([] & _).
  split_and!; try done. intros k v Hk. by eapply lookup_weaken.
Qed.

Lemma input_from_name_keeps_memo_witness :
  (∀ k v, memo sample_gen_A !! k = Some v →
          memo (set_memo sample_gen_A
                  (<["A.sc"%string := ([pystr_of "smcp"], [65%N])]>
                     (memo sample_gen_A))) !! k = Some v) ∧
  font (set_memo sample_gen_A
          (<["A.sc"%string := ([pystr_of "smcp"], [65%N])]>
             (memo sample_gen_A))) = font sample_gen_A ∧
  reverse_cmap (set_memo sample_gen_A
          (<["A.sc"%string := ([pystr_of "smcp"], [65%N])]>
             (memo sample_gen_A))) = reverse_cmap sample_gen_A ∧
  widths (set_memo sample_gen_A
          (<["A.sc"%string := ([pystr_of "smcp"], [65%N])]>
             (memo sample_gen_A))) = widths sample_gen_A ∧
  space_width (set_memo sample_gen_A
          (<["A.sc"%string := ([pystr_of "smcp"], [65%N])]>
             (memo sample_gen_A))) = space_width sample_gen_A.
Proof.
  apply (input_from_name_keeps_memo 2 sample_gen_A _ "A.sc"%string None
           ({["A.sc"%string]} ∪ ∅) false
           (Some ([pystr_of "smcp"], [65%N]))).
  vm_compute. reflexivity.
Defined.

(** X2.  While a call runs, no name that was in [seen] when it began gets a
    memo entry: the glyphs whose resolution is under way (or was given up)
    are never memoized by the calls made for others. *)
Theorem input_from_name_seen_not_memoized (depth : nat)
    (self self' : InputGenerator) (name : string) (seen seen' : gset string)
    (pad : bool) (r : option hb_input) :
  input_from_name depth self name (Some seen) pad = Ok (r, self', seen') →
  ∀ k, k ∈ seen → memo self' !! k = memo self !! k.
Proof.
  intros H. apply input_from_name_state in H as (Hext & _).
  apply (ext_frame _ _ _ _ Hext).
Qed.

Lemma input_from_name_seen_not_memoized_witness :
  input_from_name 1 sample_gen "A"%string (Some {["A.sc"%string]}) false
    = Ok (Some ([], [65%N]), sample_gen_A,
          {["A"%string]} ∪ {["A.sc"%string]}) ∧
  ∀ k, k ∈ ({["A.sc"%string]} : gset string) →
       memo sample_gen_A !! k = memo sample_gen !! k.
Proof.
  split; [vm_compute; reflexivity|].
  apply (input_from_name_seen_not_memoized 1 sample_gen sample_gen_A
           "A"%string {["A.sc"%string]} ({["A"%string]} ∪ {["A.sc"%string]})
           false (Some ([], [65%N]))).
  vm_compute. reflexivity.
Defined.

(** X3.  In a generator whose reverse character map holds code points of
    Unicode only, take a glyph that has no memo entry yet and is not in
    [seen], and that the map sends to a code point other than U+0000.  Where
    the search through the substitution rules returns, whatever candidates it
    returns, the call resolves the glyph with the empty feature tuple, never
    to [None]; when every substitution candidate needs a feature, its text is
    that one character (after the padding, if any), which [unichr] returns
    a string for. *)
Theorem encoded_glyph_resolves (depth : nat) (self self1 : InputGenerator)
    (name : string) (seen : option (gset string)) (seen1 : gset string)
    (pad : bool) (subs : list (option hb_input)) (cp : N) (w : Z) :
  cmap_in_range self →
  memo self !! name = None → name ∉ default ∅ seen →
  reverse_cmap self !! name = Some cp → cp ≠ 0%N →
  _inputs_from_gsub depth self name ({[name]} ∪ default ∅ seen)
    = Ok (subs, self1, seen1) →
  widths self !! name = Some w →
  (cp < unichr_max)%N ∧
  ∃ text,
    input_from_name (S depth) self name seen pad
      = Ok (Some ([], text),
            set_memo self1 (<[name := ([], text)]> (memo self1)), seen1) ∧
    ((∀ f t, In (Some (f, t)) subs → f ≠ []) →
     text = (if pad && bool_decide (0 < space_width self)
             then padding w (space_width self) else []) ++ unichr cp).
Proof.
  intros Hrange Hmemo Hseen Hcp Hnz Hsubs Hw.
  split; [exact (Hrange name cp Hcp)|].
  assert (Hcmap : cmap_inputs self name = [Some ([], [cp])]).
  { unfold cmap_inputs. rewrite Hcp. unfold unichr.
    destruct (decide ([cp] ≠ [0%N])) as [|Hn]; [done|].
    exfalso. apply Hn. congruence. }
  set (candidates := omap id (cmap_inputs self name ++ subs)).
  assert (Hin : In ([], [cp]) candidates).
  { unfold candidates. rewrite Hcmap. simpl. by left. }
  destruct (py_min_is_Some candidates) as [[features text] Hmin].
  { intros Hnil. by rewrite Hnil in Hin. }
  pose proof (py_min_le _ _ _ Hmin Hin) as Hle.
  assert (features = []) as ->.
  { unfold input_le, input_compare in Hle. simpl in Hle.
    destruct features; [done|]. by simpl in Hle. }
  apply _inputs_from_gsub_extends in Hsubs as Hext.
  exists ((if pad && bool_decide (0 < space_width self)
           then padding w (space_width self) else []) ++ text).
  split.
  - rewrite (input_from_name_step _ _ _ _ _ _ _ _ Hmemo Hseen Hsubs).
    unfold choose_input. fold candidates. rewrite Hmin.
    rewrite (ext_space_width _ _ _ _ Hext), (ext_widths _ _ _ _ Hext), Hw.
    destruct (pad && bool_decide (0 < space_width self)); reflexivity.
  - intros Hfeat.
    assert (text = [cp]) as ->.
    { apply py_min_in in Hmin. unfold candidates in Hmin.
      rewrite Hcmap in Hmin. simpl in Hmin.
      destruct Hmin as [[= <-]|Hmin]; [done|].
      apply list_elem_of_In, list_elem_of_omap in Hmin as (o & Ho & Heq).
      simpl in Heq. subst o. apply list_elem_of_In in Ho.
      by apply Hfeat in Ho. }
    done.
Qed.

(** The grave accent of [font_alt]: a code point, and a substitution
    candidate that needs [ccmp].  Padded, it resolves to two spaces and
    U+0300 without a feature. *)
Lemma encoded_glyph_resolves_witness :
  ∃ text,
    text = [SPACE; SPACE; 768%N] ∧
    _inputs_from_gsub 1 sample_gen_alt "gravecomb"%string
      ({["gravecomb"%string]} ∪ ∅)
      = Ok ([Some ([pystr_of "ccmp"], [769%N])], sample_gen_alt_acute,
            {["acutecomb"%string]} ∪ {["gravecomb"%string]}) ∧
    input_from_name 2 sample_gen_alt "gravecomb"%string None true
      = Ok (Some ([], text),
            set_memo sample_gen_alt_acute
              (<["gravecomb"%string := ([], text)]>
                 (memo sample_gen_alt_acute)),
            {["acutecomb"%string]} ∪ {["gravecomb"%string]}).
Proof.
  assert (Hsubs :
    _inputs_from_gsub 1 sample_gen_alt "gravecomb"%string
      ({["gravecomb"%string]} ∪ ∅)
      = Ok ([Some ([pystr_of "ccmp"], [769%N])], sample_gen_alt_acute,
            {["acutecomb"%string]} ∪ {["gravecomb"%string]})).
  { vm_compute. reflexivity. }
  destruct (encoded_glyph_resolves 1 sample_gen_alt sample_gen_alt_acute
              "gravecomb"%string None
              ({["acutecomb"%string]} ∪ {["gravecomb"%string]}) true
              [Some ([pystr_of "ccmp"], [769%N])] 768%N 300)
    as (_ & text & Hcall & Htext).
  - unfold cmap_in_range. apply (bool_decide_unpack _); vm_compute; exact I.
  - reflexivity.
  - simpl. apply (bool_decide_unpack _); vm_compute; exact I.
  - reflexivity.
  - discriminate.
  - exact Hsubs.
  - reflexivity.
  - exists text. split; [|split; [exact Hsubs | exact Hcall]].
    apply Htext. intros f t [[= <- _]|[]]. discriminate.
Defined.

(** X4.  When the space width is not positive the request to pad is without
    effect: the call does the same with [pad] set as without it. *)
Theorem pad_ignored_without_space (depth : nat) (self : InputGenerator)
    (name : string) (seen : option (gset string)) :
  space_width self ≤ 0 →
  input_from_name depth self name seen true
    = input_from_name depth self name seen false.
Proof.
  intros Hs. destruct depth as [|depth]; [done|]. simpl.
  destruct (memo self !! name); [done|].
  destruct (decide (name ∈ default ∅ seen)); [done|].
  destruct (inputs_from_gsub_with _ self name _)
    as [[[subs self1] seen1]| |] eqn:Hsubs; [|done..].
  simpl. apply _inputs_from_gsub_extends in Hsubs as Hext.
  unfold choose_input. rewrite (ext_space_width _ _ _ _ Hext).
  rewrite bool_decide_false by lia. done.
Qed.

Lemma pad_ignored_without_space_witness :
  input_from_name 2
    (HbInputGenerator_init
       {| has_cmap := true; getGlyphOrder := getGlyphOrder font_marks;
          getGlyphSet := getGlyphSet font_marks;
          font_reverse_cmap := font_reverse_cmap font_marks;
          font_widths := font_widths font_marks; font_space_width := 0;
          font_gsub := font_gsub font_marks; font_fvar := None;
          font_usWeightClass := 400 |})
    "acutecomb"%string None true
  = input_from_name 2
      (HbInputGenerator_init
         {| has_cmap := true; getGlyphOrder := getGlyphOrder font_marks;
            getGlyphSet := getGlyphSet font_marks;
            font_reverse_cmap := font_reverse_cmap font_marks;
            font_widths := font_widths font_marks; font_space_width := 0;
            font_gsub := font_gsub font_marks; font_fvar := None;
            font_usWeightClass := 400 |})
      "acutecomb"%string None false.
Proof.
  apply pad_ignored_without_space. simpl. lia.
Defined.

(** X5.  Padding changes neither whether a glyph resolves nor the glyph
    [all_inputs] builds from the result: where a call without [pad] returns,
    the same call with [pad] returns too (the width of the glyph being
    known), with the same [seen], and the two results give the same
    [Glyph]. *)
Theorem pad_does_not_change_glyph (uni_combining : N → N) (depth : nat)
    (self s : InputGenerator) (name : string) (seen : option (gset string))
    (sn : gset string) (r : option hb_input) (f : TTFont) :
  input_from_name depth self name seen false = Ok (r, s, sn) →
  is_Some (widths self !! name) →
  ∃ r' s',
    input_from_name depth self name seen true = Ok (r', s', sn) ∧
    (r' = None ↔ r = None) ∧
    glyph_of_input uni_combining name r' f
      = glyph_of_input uni_combining name r f.
Proof.
  intros H [w Hw]. destruct depth as [|depth]; [done|]. simpl in *.
  destruct (memo self !! name); [injection H as <- <- <-; eauto|].
  destruct (decide (name ∈ default ∅ seen)); [injection H as <- <- <-; eauto|].
  destruct (inputs_from_gsub_with _ self name _)
    as [[[subs self1] seen1]| |] eqn:Hsubs; [|done..].
  simpl in *. apply _inputs_from_gsub_extends in Hsubs as Hext.
  unfold choose_input in *.
  destruct (py_min (omap id (cmap_inputs self name ++ subs)))
    as [[features text]|]; [|injection H as <- <- <-; eauto].
  simpl in H. injection H as <- <- <-.
  rewrite (ext_widths _ _ _ _ Hext), Hw.
  destruct (bool_decide (0 < space_width self1)); simpl.
  - eexists _, _. split_and!; [done | done |].
    unfold padding. simpl. by rewrite remove_spaces_replicate.
  - eexists _, _. split_and!; done.
Qed.

Lemma pad_does_not_change_glyph_witness :
  ∃ r' s',
    input_from_name 1 sample_gen "acutecomb"%string None true
      = Ok (r', s', {["acutecomb"%string]} ∪ ∅) ∧
    (r' = None ↔ Some (([] : list pystr), [769%N]) = None) ∧
    glyph_of_input sample_combining "acutecomb"%string r' font_marks
      = glyph_of_input sample_combining "acutecomb"%string
          (Some ([], [769%N])) font_marks.
Proof.
  eapply (pad_does_not_change_glyph sample_combining 1 sample_gen _
            "acutecomb"%string None _ (Some ([], [769%N])) font_marks).
  - vm_compute. reflexivity.
  - apply (bool_decide_unpack _); vm_compute; exact I.
Defined.

Lemma inputs_from_rules_no_rule
    (rec : InputGenerator → string → gset string → outcome resolved)
    (self : InputGenerator) (name : string) (rules : list Rule)
    (seen : gset string) :
  (∀ r, r ∈ rules → rule_output r ≠ name) →
  inputs_from_rules rec self name rules seen = Ok ([], self, seen).
Proof.
  induction rules as [|r rules IH]; intros Hno; simpl; [done|].
  destruct (decide (rule_output r = name)) as [Heq|_].
  - exfalso. eapply Hno; [|done]. by left.
  - apply IH. intros r' Hr'. apply Hno. by right.
Qed.

(** X6.  A glyph without a memo entry that has no code point (or only
    U+0000) in the reverse character map, and that no substitution rule
    produces, is unresolvable: the call returns [None], adds the name to
    [seen] and leaves the generator as it was. *)
Theorem unreachable_glyph_unresolvable (depth : nat) (self : InputGenerator)
    (name : string) (seen : option (gset string)) (pad : bool) :
  memo self !! name = None → name ∉ default ∅ seen →
  reverse_cmap self !! name = None ∨ reverse_cmap self !! name = Some 0%N →
  (∀ r, r ∈ font_gsub (font self) → rule_output r ≠ name) →
  input_from_name (S depth) self name seen pad
    = Ok (None, self, {[name]} ∪ default ∅ seen).
Proof.
  intros Hmemo Hseen Hcmap Hrules. simpl. rewrite Hmemo.
  destruct (decide (name ∈ default ∅ seen)); [done|].
  unfold inputs_from_gsub_with.
  rewrite inputs_from_rules_no_rule by done. simpl.
  assert (cmap_inputs self name = []) as ->; [|done].
  unfold cmap_inputs. destruct Hcmap as [->| ->]; [done|].
  unfold unichr. by destruct (decide ([0%N] ≠ [0%N])).
Qed.

Lemma unreachable_glyph_unresolvable_witness :
  input_from_name 1 sample_gen "orphan"%string None true
    = Ok (None, sample_gen, {["orphan"%string]} ∪ ∅).
Proof.
  apply (unreachable_glyph_unresolvable 0 sample_gen "orphan"%string None true).
  - reflexivity.
  - simpl. apply (bool_decide_unpack _); vm_compute; exact I.
  - left. reflexivity.
  - apply (proj1 (Forall_forall _ _)).
    apply (bool_decide_unpack _); vm_compute; exact I.
Defined.

(** ** [all_inputs] and the memo *)

Lemma all_inputs_loop_memo (uni_combining : N → N) (depth : nat)
    (self self' : InputGenerator) (glyph_set : gmap string Z)
    (names : list string) (inputs out : list Glyph.t) :
  all_inputs_loop uni_combining depth self glyph_set names inputs
    = Ok (out, self') →
  ∃ new, out = inputs ++ new ∧ memo self ⊆ memo self' ∧
    Forall (λ g, (Glyph.features g = [[]] ∧ Glyph.characters g = []) ∨
                 ∃ t, memo self' !! Glyph.name g = Some (Glyph.features g, t) ∧
                      Glyph.characters g = remove_spaces t) new.
Proof.
  revert self inputs. induction names as [|name names IH]; intros self inputs H.
  { simpl in H. injection H as <- <-. exists []. by rewrite app_nil_r. }
  rewrite all_inputs_loop_cons in H.
  destruct (glyph_set !! name); [|done].
  ok_inv H. destruct a as [[r self1] sn].
  apply IH in H as (new & -> & Hsub & Hall).
  apply input_from_name_state in Hm as (Hext & Hr & _).
  exists (glyph_of_input uni_combining name r (font self1) :: new).
  split_and!.
  - by rewrite <- app_assoc.
  - etrans; [apply (ext_memo _ _ _ _ Hext) | done].
  - constructor; [|done]. destruct r as [[f t]|]; simpl; [right | by left].
    exists t. split; [|done]. by eapply lookup_weaken.
Qed.

(** X7.  What [all_inputs] returns agrees with the memo it leaves: every
    glyph of the list either is the unresolved one (features [('',)], no
    characters) or has the features of the memo entry of its name and, as
    characters, the text of that entry without its spaces.  Entries the memo
    had before the run are kept. *)
Theorem all_inputs_agrees_with_memo (uni_combining : N → N)
    (self self' : InputGenerator) (out : list Glyph.t) :
  all_inputs uni_combining self = Ok (out, self') →
  (∀ k v, memo self !! k = Some v → memo self' !! k = Some v) ∧
  ∀ g, g ∈ out →
    (Glyph.features g = [[]] ∧ Glyph.characters g = []) ∨
    ∃ t, memo self' !! Glyph.name g = Some (Glyph.features g, t) ∧
         Glyph.characters g = remove_spaces t.
Proof.
  intros H. apply all_inputs_loop_memo in H as (new & -> & Hsub & Hall).
  split.
  - intros k v Hk. by eapply lookup_weaken.
  - intros g Hg. rewrite Forall_forall in Hall. by apply Hall.
Qed.

Lemma all_inputs_agrees_with_memo_witness :
  ∃ out self',
    all_inputs sample_combining sample_gen = Ok (out, self') ∧
    (∀ k v, memo sample_gen !! k = Some v → memo self' !! k = Some v) ∧
    ∀ g, g ∈ out →
      (Glyph.features g = [[]] ∧ Glyph.characters g = []) ∨
      ∃ t, memo self' !! Glyph.name g = Some (Glyph.features g, t) ∧
           Glyph.characters g = remove_spaces t.
Proof.
  eexists _, _. split; [vm_compute; reflexivity|].
  eapply (all_inputs_agrees_with_memo sample_combining sample_gen).
  vm_compute. reflexivity.
Defined.

(** X8.  [all_inputs] stops at the first name of the glyph order that the
    glyph set does not know: the glyphs before it are resolved, then the
    lookup raises [KeyError] for that name and no list is returned. *)
Theorem all_inputs_missing_glyph (uni_combining : N → N)
    (self : InputGenerator) (pre post : list string) (name : string) :
  getGlyphOrder (font self) = pre ++ name :: post →
  Forall (λ n, is_Some (getGlyphSet (font self) !! n) ∧
               is_Some (widths self !! n)) pre →
  getGlyphSet (font self) !! name = None →
  all_inputs uni_combining self = Raise (KeyError name).
Proof.
  intros Horder Hpre Hnone. unfold all_inputs.
  rewrite Horder, all_inputs_loop_app.
  destruct (all_inputs_loop_total uni_combining (glyph_names (font self))
              (recursion_budget (font self)) self (getGlyphSet (font self))
              pre []) as (out & self1 & Hloop & _).
  - apply rules_within_glyph_names.
  - apply size_glyph_names_budget.
  - apply wf_generator_names; [done|]. intros n Hn.
    apply glyph_order_names. rewrite Horder. set_solver.
  - rewrite Hloop. cbn [obind]. by rewrite all_inputs_loop_cons, Hnone.
Qed.

Lemma all_inputs_missing_glyph_witness :
  all_inputs sample_combining (HbInputGenerator_init font_missing)
    = Raise (KeyError "ghost"%string).
Proof.
  apply (all_inputs_missing_glyph sample_combining
           (HbInputGenerator_init font_missing) ["space"; "A"]%string
           ["orphan"]%string "ghost"%string).
  - reflexivity.
  - apply (bool_decide_unpack _); vm_compute; exact I.
  - reflexivity.
Defined.

(** ** The glyph set of a [DFont] *)

Lemma glyphs_by_name_from (l : list Glyph.t) (m0 : gmap string Glyph.t) :
  let m := foldl (λ m g, <[Glyph.name g := g]> m) m0 l in
  dom m = dom m0 ∪ list_to_set (map Glyph.name l) ∧
  ∀ n g, m !! n = Some g → m0 !! n = Some g ∨ (g ∈ l ∧ Glyph.name g = n).
Proof.
  revert m0. induction l as [|x l IH]; intros m0; simpl.
  { split; [set_solver | auto]. }
  destruct (IH (<[Glyph.name x := x]> m0)) as [Hdom Hget]. split.
  - rewrite Hdom, dom_insert_L. set_solver.
  - intros n g Hn. apply Hget in Hn as [Hn|[Hin Hname]].
    + destruct (decide (Glyph.name x = n)) as [<-|Hne].
      * rewrite lookup_insert_eq in Hn. injection Hn as <-.
        right. split; [by left | done].
      * rewrite lookup_insert_ne in Hn by done. by left.
    + right. split; [by right | done].
Qed.

Lemma gen_inputs_dict (uni_combining : N → N) (Table : Type)
    (self : DFont Table) :
  has_cmap (_ttfont self) = true →
  wf_generator (HbInputGenerator_init (_ttfont self)) →
  ∃ m, _gen_inputs uni_combining self = Ok (GlyphsetDict m) ∧
       dom m = list_to_set (getGlyphOrder (_ttfont self)) ∧
       ∀ n g, m !! n = Some g →
              Glyph.name g = n ∧ Glyph.font g = _ttfont self ∧
              SPACE ∉ Glyph.characters g.
Proof.
  intros Hcmap Hwf. unfold _gen_inputs. rewrite Hcmap. simpl.
  destruct (all_inputs_total uni_combining _ Hwf)
    as (out & self' & Hrun & Hmap & Hall).
  rewrite Hrun. simpl. eexists. split; [done|].
  destruct (glyphs_by_name_from out ∅) as [Hdom Hget].
  unfold glyphs_by_name. split.
  - rewrite Hdom, Hmap. simpl. set_solver.
  - intros n g Hn. apply Hget in Hn as [Hn|[Hin Hname]]; [done|].
    rewrite Forall_forall in Hall. destruct (Hall g Hin) as [Hsp Hfont].
    done.
Qed.

(** X9.  For a font with a character map, [_gen_inputs] returns a dictionary
    whose keys are exactly the names of the glyph order; the glyph stored
    under a name carries that name, refers to the current font and has no
    space in its characters. *)
Theorem gen_inputs_keys (uni_combining : N → N) (Table : Type)
    (self : DFont Table) :
  has_cmap (_ttfont self) = true →
  wf_generator (HbInputGenerator_init (_ttfont self)) →
  ∃ m, _gen_inputs uni_combining self = Ok (GlyphsetDict m) ∧
       (∀ n, is_Some (m !! n) ↔ n ∈ getGlyphOrder (_ttfont self)) ∧
       ∀ n g, m !! n = Some g →
              Glyph.name g = n ∧ Glyph.font g = _ttfont self ∧
              SPACE ∉ Glyph.characters g.
Proof.
  intros Hcmap Hwf.
  destruct (gen_inputs_dict uni_combining Table self Hcmap Hwf)
    as (m & Hrun & Hdom & Hget).
  exists m. split_and!; [done | | done].
  intros n. rewrite <- elem_of_dom, Hdom. set_solver.
Qed.

Lemma gen_inputs_keys_witness :
  ∃ m, _gen_inputs sample_combining (sample_dfont_of font_marks)
         = Ok (GlyphsetDict m) ∧
       (∀ n, is_Some (m !! n) ↔ n ∈ getGlyphOrder font_marks) ∧
       ∀ n g, m !! n = Some g →
              Glyph.name g = n ∧ Glyph.font g = font_marks ∧
              SPACE ∉ Glyph.characters g.
Proof.
  apply (gen_inputs_keys sample_combining unit (sample_dfont_of font_marks)).
  - reflexivity.
  - unfold wf_generator. apply (bool_decide_unpack _); vm_compute; exact I.
Defined.

Section DFontLookup.
Variable uni_combining : N → N.
Variable Table : Type.
Variable DumpAnchors_marks_table : DFont Table → Table.
Variable DumpAnchors_mkmks_table : DFont Table → Table.
Variable dump_glyphs : DFont Table → Table.
Variable dump_glyph_metrics : DFont Table → Table.
Variable dump_attribs : DFont Table → Table.
Variable dump_nametable : DFont Table → Table.
Variable dump_kerning : DFont Table → Table.

#[local] Abbreviation new_DFont :=
  (DFont_init uni_combining DumpAnchors_marks_table DumpAnchors_mkmks_table
     dump_glyphs dump_glyph_metrics dump_attribs dump_nametable dump_kerning).

(** X10.  A [DFont] built from a file whose font has a character map can be
    asked for every glyph of the glyph order, and [glyph(name)] returns a
    glyph of that name; for any other name it raises [KeyError]. *)
Theorem DFont_glyph_lookup (file : string) (ttfont : TTFont) (lazy : bool) :
  has_cmap ttfont = true →
  wf_generator (HbInputGenerator_init ttfont) →
  ∃ d, new_DFont (Some file) ttfont lazy = Ok d ∧
       (∀ name, name ∈ getGlyphOrder ttfont →
                ∃ g, glyph d name = inl g ∧ Glyph.name g = name) ∧
       (∀ name, name ∉ getGlyphOrder ttfont →
                glyph d name = inr (LookupKeyError name)).
Proof.
  intros Hcmap Hwf. unfold DFont_init.
  match goal with
  | |- context [_gen_inputs uni_combining ?s] =>
      destruct (gen_inputs_dict uni_combining Table s Hcmap Hwf)
        as (m & Hrun & Hdom & Hget); rewrite Hrun
  end.
  cbn [obind]. eexists. split; [reflexivity|].
  assert (Hkeys : ∀ n, is_Some (m !! n) ↔ n ∈ getGlyphOrder ttfont).
  { intros n. rewrite <- elem_of_dom, Hdom. set_solver. }
  match goal with
  | |- context [glyph ?d _] =>
      assert (Hglyph : ∀ name,
                glyph d name = match m !! name with
                               | Some g => inl g
                               | None => inr (LookupKeyError name)
                               end)
        by (intros name; destruct lazy; reflexivity)
  end.
  split.
  - intros name [g Hg]%Hkeys. exists g.
    destruct (Hget name g Hg) as (Hname & _).
    by rewrite Hglyph, Hg.
  - intros name Hn.
    assert (m !! name = None) as Hnone.
    { apply eq_None_not_Some. by rewrite Hkeys. }
    by rewrite Hglyph, Hnone.
Qed.

(** X11.  A [DFont] built without a file, or around a font that has no
    character map, is built without resolving any glyph: its glyph set is
    the list [[]], and [glyph(name)] fails for every name, with the
    [TypeError] of a list indexed by a string and not with [KeyError]. *)
Theorem DFont_without_glyphset (file : option string) (ttfont : TTFont)
    (lazy : bool) :
  file = None ∨ has_cmap ttfont = false →
  ∃ d, new_DFont file ttfont lazy = Ok d ∧
       glyphset d = GlyphsetList ∧
       ∀ name, glyph d name = inr LookupTypeError.
Proof.
  intros Hcase. unfold DFont_init.
  assert (match file with
          | Some _ =>
              _gen_inputs uni_combining
                {| _ttfont := ttfont; _glyphset := GlyphsetList;
                   _axis_locations := None; _axis_order := None;
                   _path := None; _src := ttfont; _glyphs := None;
                   _marks := None; _mkmks := None; _kerns := None;
                   _glyph_metrics := None; _names := None;
                   _attribs := (None : option Table); _metrics := None;
                   _input_map := None |}
          | None => Ok GlyphsetList
          end = Ok GlyphsetList) as ->.
  { destruct Hcase as [->|Hno]; [done|].
    destruct file; [|done]. unfold _gen_inputs. simpl. by rewrite Hno. }
  cbn [obind]. eexists. split; [reflexivity|].
  split; [|intros name]; destruct lazy; reflexivity.
Qed.

End DFontLookup.

Lemma DFont_glyph_lookup_witness :
  ∃ d, sample_DFont_init (Some "marks.ttf"%string) font_marks false = Ok d ∧
       (∀ name, name ∈ getGlyphOrder font_marks →
                ∃ g, glyph d name = inl g ∧ Glyph.name g = name) ∧
       (∀ name, name ∉ getGlyphOrder font_marks →
                glyph d name = inr (LookupKeyError name)).
Proof.
  apply (DFont_glyph_lookup sample_combining unit sample_dump sample_dump
           sample_dump sample_dump sample_dump sample_dump sample_dump
           "marks.ttf"%string font_marks false).
  - reflexivity.
  - unfold wf_generator. apply (bool_decide_unpack _); vm_compute; exact I.
Defined.

Lemma DFont_without_glyphset_witness :
  ∃ d, sample_DFont_init None font_marks false = Ok d ∧
       glyphset d = GlyphsetList ∧
       ∀ name, glyph d name = inr LookupTypeError.
Proof.
  apply (DFont_without_glyphset sample_combining unit sample_dump sample_dump
           sample_dump sample_dump sample_dump sample_dump sample_dump
           None font_marks false).
  by left.
Defined.

(** ** Pinning variations *)

Section DFontVariations.
Variable Table : Type.
Variable instantiateVariableFont : TTFont → list (string * Z) → TTFont.
Variable DumpAnchors_marks_table : DFont Table → Table.
Variable DumpAnchors_mkmks_table : DFont Table → Table.
Variable dump_glyphs : DFont Table → Table.
Variable dump_glyph_metrics : DFont Table → Table.
Variable dump_attribs : DFont Table → Table.
Variable dump_nametable : DFont Table → Table.
Variable dump_kerning : DFont Table → Table.

#[local] Abbreviation set_vars :=
  (set_variations instantiateVariableFont DumpAnchors_marks_table
     DumpAnchors_mkmks_table dump_glyphs dump_glyph_metrics dump_attribs
     dump_nametable dump_kerning).

#[local] Abbreviation set_from_static :=
  (set_variations_from_static instantiateVariableFont DumpAnchors_marks_table
     DumpAnchors_mkmks_table dump_glyphs dump_glyph_metrics dump_attribs
     dump_nametable dump_kerning).

#[local] Abbreviation pin_fonts :=
  (main_set_variations instantiateVariableFont DumpAnchors_marks_table
     DumpAnchors_mkmks_table dump_glyphs dump_glyph_metrics dump_attribs
     dump_nametable dump_kerning).

Lemma set_variations_src (self : DFont Table) (axes : list (string * Z))
    (out : list string) :
  _src (set_vars self axes out).1 = _src self.
Proof.
  unfold set_variations. destruct (font_fvar (_src self)); [|done].
  by destruct (apply_axes _ _ _).
Qed.

Lemma set_variations_static (self : DFont Table) (axes : list (string * Z))
    (out : list string) :
  font_fvar (_src self) = None →
  set_vars self axes out = (self, out ++ ["Not vf"%string]).
Proof. intros H. unfold set_variations. by rewrite H. Qed.

Lemma set_variations_from_static_src (self other : DFont Table)
    (out : list string) :
  _src (set_from_static self other out).1 = _src self.
Proof.
  unfold set_variations_from_static.
  destruct (is_variable self); [apply set_variations_src | done].
Qed.

Lemma is_variable_fvar (self : DFont Table) :
  is_variable self = true ↔ is_Some (font_fvar (_src self)).
Proof. unfold is_variable. apply bool_decide_eq_true. Qed.

(** X12.  [set_variations] always starts from the font as loaded: a second
    call does not build on the first.  After two calls in a row the font
    resource, [axis_locations], [axis_order] and what the second call printed
    are those of the second call made alone; an axis pinned by the first
    request and absent from the second is back at its default. *)
Theorem set_variations_last_call_wins (self : DFont Table)
    (axes1 axes2 : list (string * Z)) (out1 out2 : list string) :
  let once := set_vars self axes2 out2 in
  let twice := set_vars (set_vars self axes1 out1).1 axes2 out2 in
  _ttfont twice.1 = _ttfont once.1 ∧
  axis_locations twice.1 = axis_locations once.1 ∧
  axis_order twice.1 = axis_order once.1 ∧
  _src twice.1 = _src self ∧
  glyphset twice.1 = glyphset self ∧
  twice.2 = once.2.
Proof.
  intros once twice. subst once twice.
  pose proof (set_variations_src self axes1 out1) as Hsrc1.
  destruct (font_fvar (_src self)) as [fvar_axes|] eqn:Hfvar.
  - pose proof (set_variations_unfold Table instantiateVariableFont
                  DumpAnchors_marks_table DumpAnchors_mkmks_table dump_glyphs
                  dump_glyph_metrics dump_attribs dump_nametable dump_kerning)
      as Hunfold.
    destruct (Hunfold self axes1 out1 fvar_axes Hfvar) as (_ & Hg1 & _).
    destruct (Hunfold self axes2 out2 fvar_axes Hfvar)
      as (Hf & _ & Ho & Hl & Hp).
    destruct (Hunfold (set_vars self axes1 out1).1 axes2 out2 fvar_axes)
      as (Hf' & Hg' & Ho' & Hl' & Hp'); [by rewrite Hsrc1|].
    unfold axis_locations, axis_order, glyphset.
    rewrite Hf, Hf', Ho, Ho', Hl, Hl', Hp, Hp', Hg', Hg1, Hsrc1.
    split_and!; try reflexivity.
    by rewrite set_variations_src.
  - rewrite (set_variations_static self axes1 out1 Hfvar). cbn [fst].
    rewrite (set_variations_static self axes2 out2 Hfvar).
    split_and!; reflexivity.
Qed.

(** X13.  [set_variations_from_static] on a variable font instantiates it at
    the weight class of the other font alone.  When the font declares "wght"
    that axis is pinned at the weight class and nothing is printed; when it
    does not, every axis stays at its default and the line for the missing
    axis "wght" is printed.  The other declared axes are at their defaults
    either way. *)
Theorem set_variations_from_static_wght (self other : DFont Table)
    (out : list string) (fvar_axes : list Axis) :
  font_fvar (_src self) = Some fvar_axes →
  NoDup (map axisTag fvar_axes) →
  let weight := font_usWeightClass (_ttfont other) in
  let r := set_from_static self other out in
  _ttfont r.1 = instantiateVariableFont (_src self) [("wght"%string, weight)] ∧
  ∃ locations,
    axis_locations r.1 = Some locations ∧
    (∀ a, a ∈ fvar_axes → axisTag a ≠ "wght"%string →
          locations !! axisTag a = Some (defaultValue a)) ∧
    ("wght"%string ∈ map axisTag fvar_axes →
     locations !! "wght"%string = Some weight ∧ r.2 = out) ∧
    ("wght"%string ∉ map axisTag fvar_axes →
     locations = default_locations fvar_axes ∧
     r.2 = out ++ [no_axis_message "wght"]).
Proof.
  intros Hfvar Hnd weight r. subst r weight.
  unfold set_variations_from_static.
  assert (is_variable self = true) as ->.
  { apply is_variable_fvar. by rewrite Hfvar. }
  cbv iota.
  destruct (set_variations_unfold Table instantiateVariableFont
              DumpAnchors_marks_table DumpAnchors_mkmks_table dump_glyphs
              dump_glyph_metrics dump_attribs dump_nametable dump_kerning
              self [("wght"%string, font_usWeightClass (_ttfont other))] out
              fvar_axes Hfvar)
    as (Hfont & _ & _ & Hloc & Hout).
  split; [done|]. eexists. split; [exact Hloc|].
  rewrite Hout. simpl.
  pose proof (default_locations_dom fvar_axes) as Hdom.
  destruct (decide (is_Some (default_locations fvar_axes !! "wght"%string)))
    as [Hin|Hnin]; simpl.
  - apply elem_of_dom in Hin. rewrite Hdom in Hin. split_and!.
    + intros a Ha Hne. rewrite lookup_insert_ne by done.
      by apply default_locations_lookup.
    + intros _. by rewrite lookup_insert_eq.
    + intros Hn. exfalso. apply Hn. set_solver.
  - rewrite <- elem_of_dom, Hdom in Hnin. split_and!.
    + intros a Ha _. by apply default_locations_lookup.
    + intros Hin. exfalso. apply Hnin. set_solver.
    + done.
Qed.

(** X14.  On a font without an [fvar] table nothing is instantiated:
    [set_variations] returns the object as it was and prints the one line
    "Not vf", and [set_variations_from_static] returns it as it was and
    prints nothing. *)
Theorem static_font_not_pinned (self other : DFont Table)
    (axes : list (string * Z)) (out : list string) :
  font_fvar (_src self) = None →
  set_vars self axes out = (self, out ++ ["Not vf"%string]) ∧
  set_from_static self other out = (self, out).
Proof.
  intros Hfvar. split; [by apply set_variations_static|].
  unfold set_variations_from_static.
  assert (is_variable self = false) as ->; [|done].
  apply not_true_is_false. rewrite is_variable_fvar, Hfvar.
  by intros [? ?].
Qed.

(** X15.  The pinning step of [main] never touches a font that is not
    variable and never changes the font either object was loaded from (so
    [is_variable] answers the same afterwards); with two static fonts it
    prints nothing. *)
Theorem main_keeps_static_fonts (font_a font_b : DFont Table)
    (variations : list (string * Z)) (out : list string) :
  let r := pin_fonts font_a font_b variations out in
  (is_variable font_a = false → r.1.1 = font_a) ∧
  (is_variable font_b = false → r.1.2 = font_b) ∧
  _src r.1.1 = _src font_a ∧ _src r.1.2 = _src font_b ∧
  is_variable r.1.1 = is_variable font_a ∧
  is_variable r.1.2 = is_variable font_b ∧
  (is_variable font_a = false → is_variable font_b = false → r.2 = out).
Proof.
  simpl. unfold main_set_variations.
  assert (Hsv : ∀ d axes o, is_variable (set_vars d axes o).1 = is_variable d).
  { intros. unfold is_variable. by rewrite set_variations_src. }
  assert (Hfs : ∀ d e o, is_variable (set_from_static d e o).1 = is_variable d).
  { intros. unfold is_variable. by rewrite set_variations_from_static_src. }
  destruct (is_variable font_a) eqn:Ha, (is_variable font_b) eqn:Hb; simpl.
  - pose proof (set_variations_src font_a variations out) as Hsa.
    pose proof (Hsv font_a variations out) as Hva.
    destruct (set_vars font_a variations out) as [a oa]. simpl in *.
    pose proof (set_variations_src font_b variations oa) as Hsb.
    pose proof (Hsv font_b variations oa) as Hvb.
    destruct (set_vars font_b variations oa) as [b ob]. simpl in *.
    split_and!; try done; congruence.
  - pose proof (set_variations_from_static_src font_a font_b out) as Hsa.
    pose proof (Hfs font_a font_b out) as Hva.
    destruct (set_from_static font_a font_b out) as [a oa]. simpl in *.
    split_and!; try done; congruence.
  - pose proof (set_variations_from_static_src font_b font_a out) as Hsb.
    pose proof (Hfs font_b font_a out) as Hvb.
    destruct (set_from_static font_b font_a out) as [b ob]. simpl in *.
    split_and!; try done; congruence.
  - split_and!; done.
Qed.

(** X16.  When both fonts are variable, [main] gives both the same request:
    every requested axis that both fonts declare is pinned at the requested
    value in both, and each font resource is the instance of its own source
    font at the request. *)
Theorem main_pins_both_alike (font_a font_b : DFont Table)
    (variations : list (string * Z)) (out : list string)
    (axes_a axes_b : list Axis) :
  font_fvar (_src font_a) = Some axes_a →
  font_fvar (_src font_b) = Some axes_b →
  NoDup (map fst variations) →
  let r := pin_fonts font_a font_b variations out in
  _ttfont r.1.1 = instantiateVariableFont (_src font_a) variations ∧
  _ttfont r.1.2 = instantiateVariableFont (_src font_b) variations ∧
  ∃ la lb,
    axis_locations r.1.1 = Some la ∧ axis_locations r.1.2 = Some lb ∧
    ∀ t v, (t, v) ∈ variations →
           t ∈ map axisTag axes_a → t ∈ map axisTag axes_b →
           la !! t = Some v ∧ lb !! t = Some v.
Proof.
  intros Hfa Hfb Hnd. simpl. unfold main_set_variations.
  assert (is_variable font_a = true) as ->.
  { apply is_variable_fvar. by rewrite Hfa. }
  assert (is_variable font_b = true) as ->.
  { apply is_variable_fvar. by rewrite Hfb. }
  simpl.
  destruct (set_variations_unfold Table instantiateVariableFont
              DumpAnchors_marks_table DumpAnchors_mkmks_table dump_glyphs
              dump_glyph_metrics dump_attribs dump_nametable dump_kerning
              font_a variations out axes_a Hfa)
    as (Hta & _ & _ & Hla & _).
  destruct (set_vars font_a variations out) as [a oa]. simpl in *.
  destruct (set_variations_unfold Table instantiateVariableFont
              DumpAnchors_marks_table DumpAnchors_mkmks_table dump_glyphs
              dump_glyph_metrics dump_attribs dump_nametable dump_kerning
              font_b variations oa axes_b Hfb)
    as (Htb & _ & _ & Hlb & _).
  destruct (set_vars font_b variations oa) as [b ob]. simpl in *.
  split_and!; [done..|].
  eexists _, _. split_and!; [exact Hla | exact Hlb |].
  intros t v Htv Hina Hinb.
  destruct (apply_axes_spec variations (default_locations axes_a) out Hnd)
    as (_ & Hseta & _).
  destruct (apply_axes_spec variations (default_locations axes_b) oa Hnd)
    as (_ & Hsetb & _).
  split.
  - apply Hseta; [done|]. rewrite default_locations_dom. set_solver.
  - apply Hsetb; [done|]. rewrite default_locations_dom. set_solver.
Qed.

End DFontVariations.

Lemma set_variations_from_static_wght_witness :
  let weight := font_usWeightClass (_ttfont (sample_dfont_of font_bold)) in
  let r := sample_set_variations_from_static (sample_dfont_of font_wdth)
             (sample_dfont_of font_bold) [] in
  _ttfont r.1
    = sample_instantiate (_src (sample_dfont_of font_wdth))
        [("wght"%string, weight)] ∧
  ∃ locations,
    axis_locations r.1 = Some locations ∧
    (∀ a, a ∈ [{| axisTag := "wdth"; defaultValue := 100 |}] →
          axisTag a ≠ "wght"%string →
          locations !! axisTag a = Some (defaultValue a)) ∧
    ("wght"%string ∈ map axisTag [{| axisTag := "wdth"; defaultValue := 100 |}] →
     locations !! "wght"%string = Some weight ∧ r.2 = []) ∧
    ("wght"%string ∉ map axisTag [{| axisTag := "wdth"; defaultValue := 100 |}] →
     locations = default_locations [{| axisTag := "wdth"; defaultValue := 100 |}] ∧
     r.2 = [] ++ [no_axis_message "wght"]).
Proof.
  refine (set_variations_from_static_wght unit sample_instantiate sample_dump
            sample_dump sample_dump sample_dump sample_dump sample_dump
            sample_dump (sample_dfont_of font_wdth) (sample_dfont_of font_bold)
            [] [{| axisTag := "wdth"; defaultValue := 100 |}] _ _).
  - reflexivity.
  - apply (bool_decide_unpack _); vm_compute; exact I.
Defined.

(** A variable font whose only axis is "wdth", paired with a static font of
    weight class 700: the line for "wght" is printed and "wdth" stays at its
    default. *)
Example from_static_without_wght_axis :
  let r := sample_set_variations_from_static (sample_dfont_of font_wdth)
             (sample_dfont_of font_bold) [] in
  axis_locations r.1 = Some {["wdth"%string := 100]} ∧
  r.2 = ["font has no axis called wght"%string].
Proof. split; by vm_compute. Qed.

Lemma static_font_not_pinned_witness :
  sample_set_variations (sample_dfont_of font_bold) [("wght"%string, 400)] []
    = (sample_dfont_of font_bold, [] ++ ["Not vf"%string]) ∧
  sample_set_variations_from_static (sample_dfont_of font_bold)
    (sample_dfont_of font_vf) []
    = (sample_dfont_of font_bold, []).
Proof.
  refine (static_font_not_pinned unit sample_instantiate sample_dump
            sample_dump sample_dump sample_dump sample_dump sample_dump
            sample_dump (sample_dfont_of font_bold) (sample_dfont_of font_vf)
            [("wght"%string, 400)] [] _).
  reflexivity.
Defined.

Lemma main_pins_both_alike_witness :
  let r := sample_main_set_variations (sample_dfont_of font_vf)
             (sample_dfont_of font_vf2) [("wght"%string, 400)] [] in
  _ttfont r.1.1 = sample_instantiate font_vf [("wght"%string, 400)] ∧
  _ttfont r.1.2 = sample_instantiate font_vf2 [("wght"%string, 400)] ∧
  ∃ la lb,
    axis_locations r.1.1 = Some la ∧ axis_locations r.1.2 = Some lb ∧
    ∀ t v, (t, v) ∈ [("wght"%string, 400)] →
           t ∈ map axisTag [{| axisTag := "wght"; defaultValue := 400 |}] →
           t ∈ map axisTag [{| axisTag := "wght"; defaultValue := 300 |};
                            {| axisTag := "wdth"; defaultValue := 100 |}] →
           la !! t = Some v ∧ lb !! t = Some v.
Proof.
  refine (main_pins_both_alike unit sample_instantiate sample_dump
            sample_dump sample_dump sample_dump sample_dump sample_dump
            sample_dump (sample_dfont_of font_vf) (sample_dfont_of font_vf2)
            [("wght"%string, 400)] []
            [{| axisTag := "wght"; defaultValue := 400 |}]
            [{| axisTag := "wght"; defaultValue := 300 |};
             {| axisTag := "wdth"; defaultValue := 100 |}] _ _ _).
  - reflexivity.
  - reflexivity.
  - apply (bool_decide_unpack _); vm_compute; exact I.
Defined.
